(** * update_dd.py: monthly heating degree-days and their merge into the
    persisted table.

    The development embeds [dd_for_site] (the aggregator) and the
    [__main__] block (the merger) of [update_dd.py] as Rocq functions and
    proves the properties the specification states about them.

    Modelling conventions.
    - Python floats are idealised as exact rationals ([Q]); [NaN], which
      pandas produces for the mean of an empty month, is kept as a value of
      its own.  The only comparison of the program that looks at a rounded
      quotient is [coverage > MIN_COVERAGE]: a coverage is [H / N] with
      [N <= 744], so it differs from 7/10 by at least 1/7440 unless it is
      equal to it, and rounding to a double cannot change the outcome.
    - A timestamp is the record of its calendar fields; years are
      unbounded.
    - The remote service is a function from the request to either a raised
      exception or the decoded JSON response.
    - [print] appends one string to the standard output, kept as a list. *)

From Stdlib Require Import String Ascii ZArith QArith Qminmax Lqa List Bool Lia.
From Stdlib Require Import Permutation Sorted OrderedTypeEx DecimalString.
Import ListNotations.

Local Open Scope Z_scope.

(* ================================================================== *)
(** * Calendar: [datetime], [timedelta] and month arithmetic          *)
(* ================================================================== *)

Record datetime := mk_datetime {
  year : Z; month : Z; day : Z;
  hour : Z; minute : Z; second : Z; microsecond : Z
}.

Definition is_leap (y : Z) : bool :=
  (y mod 4 =? 0) && (negb (y mod 100 =? 0) || (y mod 400 =? 0)).

Definition days_in_month (y m : Z) : Z :=
  if m =? 2 then (if is_leap y then 29 else 28)
  else if (m =? 4) || (m =? 6) || (m =? 9) || (m =? 11) then 30
  else 31.

(** A timestamp that names a real instant of the calendar. *)
Definition valid_timestamp (d : datetime) : Prop :=
  1 <= month d <= 12 /\
  1 <= day d <= days_in_month (year d) (month d) /\
  0 <= hour d < 24 /\ 0 <= minute d < 60 /\ 0 <= second d < 60 /\
  0 <= microsecond d < 1000000.

Definition valid_timestampb (d : datetime) : bool :=
  (1 <=? month d) && (month d <=? 12) &&
  (1 <=? day d) && (day d <=? days_in_month (year d) (month d)) &&
  (0 <=? hour d) && (hour d <? 24) &&
  (0 <=? minute d) && (minute d <? 60) &&
  (0 <=? second d) && (second d <? 60) &&
  (0 <=? microsecond d) && (microsecond d <? 1000000).

(** [datetime(y, m, d)]: midnight of the given day. *)
Definition date (y m d : Z) : datetime := mk_datetime y m d 0 0 0 0.

(** One calendar day later, same time of day. *)
Definition next_day (d : datetime) : datetime :=
  if day d <? days_in_month (year d) (month d)
  then mk_datetime (year d) (month d) (day d + 1)
                   (hour d) (minute d) (second d) (microsecond d)
  else if month d <? 12
  then mk_datetime (year d) (month d + 1) 1
                   (hour d) (minute d) (second d) (microsecond d)
  else mk_datetime (year d + 1) 1 1
                   (hour d) (minute d) (second d) (microsecond d).

(** [d.replace(day=k)]. *)
Definition set_day (d : datetime) (k : Z) : datetime :=
  mk_datetime (year d) (month d) k
              (hour d) (minute d) (second d) (microsecond d).

(** [d + timedelta(days=n)]. *)
Definition add_days (n : nat) (d : datetime) : datetime :=
  Nat.iter n next_day d.

(** [d.replace(day=1, hour=0, minute=0, second=0, microsecond=0)]. *)
Definition month_floor (d : datetime) : datetime :=
  mk_datetime (year d) (month d) 1 0 0 0 0.

(** The first day of the month that follows the month of [d]. *)
Definition following_month (d : datetime) : datetime :=
  if month d <? 12 then date (year d) (month d + 1) 1
  else date (year d + 1) 1 1.

(** Months counted from year 0: the key of a monthly bucket. *)
Definition month_ord (d : datetime) : Z := year d * 12 + (month d - 1).

(** The label pandas gives the bucket of month number [i]: midnight of the
    month's last day. *)
Definition month_end (i : Z) : datetime :=
  let y := i / 12 in
  let m := i mod 12 + 1 in
  date y m (days_in_month y m).

(** Chronological order of timestamps, field by field. *)
Fixpoint lex_compare (a b : list Z) : comparison :=
  match a, b with
  | [], [] => Eq
  | [], _ :: _ => Lt
  | _ :: _, [] => Gt
  | x :: a', y :: b' =>
      match x ?= y with
      | Eq => lex_compare a' b'
      | c => c
      end
  end.

Definition fields (d : datetime) : list Z :=
  [year d; month d; day d; hour d; minute d; second d; microsecond d].

Definition dt_compare (a b : datetime) : comparison :=
  lex_compare (fields a) (fields b).

Definition dt_leb (a b : datetime) : bool :=
  match dt_compare a b with Gt => false | _ => true end.

Definition dt_max (a b : datetime) : datetime :=
  if dt_leb a b then b else a.

(* ================================================================== *)
(** * The pandas operations the script uses                           *)
(* ================================================================== *)

(** A float column entry: a number or [NaN]. *)
Inductive value := NaN | Num (q : Q).

Definition vmul (v : value) (n : Z) : value :=
  match v with
  | NaN => NaN
  | Num q => Num (q * inject_Z n)
  end.

Definition Qsum (xs : list Q) : Q := fold_right Qplus 0%Q xs.

Definition Qmean (xs : list Q) : Q :=
  (Qsum xs / inject_Z (Z.of_nat (List.length xs)))%Q.

(** [mean] of a bucket: [NaN] when the bucket is empty. *)
Definition mean (xs : list Q) : value :=
  match xs with
  | [] => NaN
  | _ :: _ => Num (Qmean xs)
  end.

Definition Qlt_bool (x y : Q) : bool := negb (Qle_bool y x).

Fixpoint months_from (lo : Z) (n : nat) : list Z :=
  match n with
  | O => []
  | S k => lo :: months_from (lo + 1) k
  end.

(** The buckets of [resample('1M')]: every month from the month of the
    earliest index entry to the month of the latest one, whether or not it
    holds an entry; none for an empty index. *)
Definition bin_ords (index : list datetime) : list Z :=
  match index with
  | [] => []
  | d :: ds =>
      let lo := fold_right Z.min (month_ord d) (map month_ord ds) in
      let hi := fold_right Z.max (month_ord d) (map month_ord ds) in
      months_from lo (Z.to_nat (hi - lo + 1))
  end.

(** The entries of a time-indexed column that fall in bucket [i].  The
    bucket of a month runs to the last instant of its last day. *)
Definition in_bin {A} (i : Z) (df : list (datetime * A)) : list A :=
  map snd (filter (fun r => month_ord (fst r) =? i) df).

(** [df.resample('1M').agg()]: one row per bucket, labelled by month end. *)
Definition resample {A B} (agg : list A -> B) (df : list (datetime * A))
  : list (datetime * B) :=
  map (fun i => (month_end i, agg (in_bin i df))) (bin_ords (map fst df)).

(** [Index.unique()]: the distinct values in order of first appearance. *)
Fixpoint unique (l : list string) : list string :=
  match l with
  | [] => []
  | x :: l' => x :: filter (fun y => negb (String.eqb x y)) (unique l')
  end.

(* ================================================================== *)
(** * The aggregator: [dd_for_site]                                    *)
(* ================================================================== *)

(** Exceptions, by the two things the script prints of them: the class and
    [str] of the value. *)
Record exn := mk_exn { exc_class : string; exc_value : string }.

Definition ValueError (msg : string) : exn := mk_exn "ValueError" msg.
Definition KeyError (key : string) : exn :=
  mk_exn "KeyError" ("'" ++ key ++ "'")%string.
Definition TypeError (msg : string) : exn := mk_exn "TypeError" msg.

Definition result (A : Type) : Type := exn + A.
Definition ret {A} (x : A) : result A := inr x.
Definition raise {A} (e : exn) : result A := inl e.
Definition bind {A B} (c : result A) (k : A -> result B) : result B :=
  match c with
  | inl e => inl e
  | inr x => k x
  end.

Notation "x <- c ;; k" := (bind c (fun x => k))
  (at level 61, c at next level, right associativity).

(** Subscripting a JSON object: [KeyError] when the key is absent. *)
Definition getitem {A} (field : option A) (key : string) : result A :=
  match field with
  | Some v => ret v
  | None => raise (KeyError key)
  end.

Definition reading : Type := datetime * Q.

(** The value under ['data']: its [str] and, when it has one, the table
    under ['readings']. *)
Record payload := mk_payload {
  payload_str : string;
  readings : option (list reading)
}.

Record response := mk_response {
  status : option string;
  data : option payload
}.

Record params := mk_params {
  start_ts : Z * Z * Z;
  averaging : string
}.

(** [requests.get(url, params=params).json()]. *)
Definition Remote : Type := string -> params -> result response.

Definition BMON_URL (sensor_id : string) : string :=
  ("https://bms.ahfc.us/api/v1/readings/" ++ sensor_id ++ "/")%string.

Definition hdd60_hour (x : Q) : Q :=
  if Qlt_bool x 60 then ((60 - x) / 24)%Q else 0%Q.

Definition hdd65_hour (x : Q) : Q :=
  if Qlt_bool x 65 then ((65 - x) / 24)%Q else 0%Q.

(** A row of the table [dd_for_site] returns; [idx_month] is its index. *)
Record dd_row := mk_dd_row {
  idx_month : datetime;
  m_hdd60 : value;
  m_hdd65 : value;
  coverage : Q
}.

(** Lines 114-135: from the readings to the monthly table. *)
Definition monthly_table (rs : list reading) : list dd_row :=
  let df := rs in
  let dfc := resample (fun xs => Z.of_nat (length xs)) df in
  let total_hours := map (fun i => day i * 24) (map fst dfc) in
  let dfc_coverage :=
    map (fun ct => (inject_Z (fst ct) / inject_Z (snd ct))%Q)
        (combine (map snd dfc) total_hours) in
  let df_hdd :=
    map (fun r => (fst r, (hdd60_hour (snd r), hdd65_hour (snd r)))) df in
  let dfm :=
    resample (fun xs => (mean (map fst xs), mean (map snd xs))) df_hdd in
  map (fun r =>
         let '(d, (h60, h65), cov, th) := r in
         mk_dd_row (date (year d) (month d) 1) (vmul h60 th) (vmul h65 th) cov)
      (combine (combine dfm dfc_coverage) total_hours).

(** The row of bucket [i], written out. *)
Definition bucket_row (rs : list reading) (i : Z) : dd_row :=
  let total_hours := days_in_month (i / 12) (i mod 12 + 1) * 24 in
  mk_dd_row (date (i / 12) (i mod 12 + 1) 1)
            (vmul (mean (map hdd60_hour (in_bin i rs))) total_hours)
            (vmul (mean (map hdd65_hour (in_bin i rs))) total_hours)
            (inject_Z (Z.of_nat (List.length (in_bin i rs)))
             / inject_Z total_hours).

(** Lines 105-111: the request for the station's sensor, from the first
    day of the month of [start_date]. *)
Definition request (remote : Remote) (stn : string) (start_date : datetime)
  : result response :=
  let st_dt_1 := month_floor start_date in
  let params :=
    mk_params (year st_dt_1, month st_dt_1, day st_dt_1) "1H" in
  let sensor_id := (stn ++ "_temp")%string in
  remote (BMON_URL sensor_id) params.

Definition dd_for_site (remote : Remote) (stn : string)
  (start_date : datetime) : result (list dd_row) :=
  resp <- request remote stn start_date ;;
  st <- getitem (status resp) "status" ;;
  if String.eqb st "success" then
    d <- getitem (data resp) "data" ;;
    rs <- getitem (readings d) "readings" ;;
    ret (monthly_table rs)
  else
    d <- getitem (data resp) "data" ;;
    raise (ValueError (payload_str d)).

(* ================================================================== *)
(** * The merger: the [__main__] block                                 *)
(* ================================================================== *)

(** A row of the persisted table: the [station] index and the columns. *)
Record record := mk_record {
  station : string;
  rec_month : datetime;
  hdd60 : value;
  hdd65 : value
}.

(** [MIN_COVERAGE = 0.7]: the least fraction of a month's hours that must
    have data, compared strictly. *)
Definition MIN_COVERAGE : Q := 7 # 10.

(** [df.loc[stn]]: the rows whose index is [stn]. *)
Definition loc (df : list record) (stn : string) : list record :=
  filter (fun r => String.eqb (station r) stn) df.

(** [df_exist.loc[stn].month.max()].  When the label occurs once, [loc]
    yields the row itself and not a table; its [month] entry is then a
    single [Timestamp], whose attribute [max] is the largest representable
    timestamp, a value that cannot be called. *)
Definition last_month (stn : string) (sel : list record) : result datetime :=
  match sel with
  | [] => raise (KeyError stn)
  | [_] => raise (TypeError "'Timestamp' object is not callable")
  | r :: rs => ret (fold_left dt_max (map rec_month rs) (rec_month r))
  end.

(** [.query('coverage > @MIN_COVERAGE')]. *)
Definition query (dfm : list dd_row) : list dd_row :=
  filter (fun r => Qlt_bool MIN_COVERAGE (coverage r)) dfm.

(** Lines 161-164: the index becomes the [month] column, the station
    becomes the index and [coverage] is dropped. *)
Definition to_records (stn : string) (df_new : list dd_row) : list record :=
  map (fun r => mk_record stn (idx_month r) (m_hdd60 r) (m_hdd65 r)) df_new.

(** Lines 152-157, the part of the [try] body that can raise. *)
Definition try_station (remote : Remote) (df_exist : list record)
  (stn : string) : result (list dd_row) :=
  last_mo <- last_month stn (loc df_exist stn) ;;
  let next_mo := add_days 32 last_mo in
  dfm <- dd_for_site remote stn next_mo ;;
  ret (query dfm).

Definition nl : string := String (ascii_of_nat 10) EmptyString.

Definition string_of_nat (n : nat) : string :=
  NilEmpty.string_of_uint (Nat.to_uint n).

(** The line the [except] branch prints: the class and the value of the
    exception, then a newline. *)
Definition format_exc (e : exn) : string :=
  ("<class '" ++ exc_class e ++ "'>: " ++ exc_value e ++ nl)%string.

Record state := mk_state {
  new_dfs : list (list record);
  stdout : list string
}.

(** What one station stages: its accepted months, nothing when the [try]
    body raised. *)
Definition staged (remote : Remote) (df_exist : list record) (stn : string)
  : list record :=
  match try_station remote df_exist stn with
  | inr df_new => to_records stn df_new
  | inl _ => []
  end.

(** One iteration of the loop over the stations. *)
Definition process_station (remote : Remote) (df_exist : list record)
  (st : state) (stn : string) : state :=
  let out := stdout st ++ [("Processing " ++ stn ++ ": ")%string] in
  match try_station remote df_exist stn with
  | inr df_new =>
      if (0 <? List.length df_new)%nat then
        mk_state (new_dfs st ++ [to_records stn df_new])
                 (out ++ [(string_of_nat (List.length df_new)
                           ++ " new months" ++ nl)%string])
      else mk_state (new_dfs st) (out ++ [nl])
  | inl e => mk_state (new_dfs st) (out ++ [format_exc e])
  end.

(** Order of [sort_values(['station', 'month'])]. *)
Definition key_leb (a b : record) : bool :=
  match String.compare (station a) (station b) with
  | Lt => true
  | Eq => dt_leb (rec_month a) (rec_month b)
  | Gt => false
  end.

Fixpoint insert (r : record) (l : list record) : list record :=
  match l with
  | [] => [r]
  | x :: l' => if key_leb r x then r :: l else x :: insert r l'
  end.

Definition sort_values (df : list record) : list record :=
  fold_right insert [] df.

(** The whole run: the table that is persisted and what is printed. *)
Definition main (remote : Remote) (df_exist : list record)
  : list record * list string :=
  let st :=
    fold_left (process_station remote df_exist)
              (unique (map station df_exist)) (mk_state [] []) in
  let df_final := sort_values (concat (df_exist :: new_dfs st)) in
  (df_final, stdout st).

Definition df_final (remote : Remote) (df_exist : list record) : list record :=
  fst (main remote df_exist).

(* ================================================================== *)
(** * Notions of the specification                                     *)
(* ================================================================== *)

(** The readings whose timestamp lies in the calendar month [(y, m)]. *)
Definition readings_in (y m : Z) (rs : list reading) : list reading :=
  filter (fun r => (year (fst r) =? y) && (month (fst r) =? m)) rs.

(** Every timestamp names a month of the calendar. *)
Definition timestamps_ok (rs : list reading) : Prop :=
  Forall (fun r => 1 <= month (fst r) <= 12) rs.

(** The service answers the request of [dd_for_site] with status
    [success] and the readings [rs]. *)
Definition answers (remote : Remote) (stn : string) (start_date : datetime)
  (rs : list reading) : Prop :=
  exists resp d,
    request remote stn start_date = inr resp /\
    status resp = Some "success"%string /\
    data resp = Some d /\
    readings d = Some rs.


(** Both degree-day values are numbers, with [0 <= hdd60 <= hdd65]. *)
Definition hdd_ordered (row : dd_row) : Prop :=
  exists a b, m_hdd60 row = Num a /\ m_hdd65 row = Num b /\
              (0 <= a)%Q /\ (a <= b)%Q.



(** The order of the persisted table: by station, then by month. *)
Definition key_le (a b : record) : Prop :=
  String.compare (station a) (station b) = Lt \/
  (station a = station b /\
   dt_compare (rec_month a) (rec_month b) <> Gt).

(** What identifies a row of the persisted table. *)
Definition key (r : record) : string * datetime :=
  (station r, rec_month r).

(** The two strings one iteration of the loop prints. *)
Definition station_output (remote : Remote) (df_exist : list record)
  (stn : string) : list string :=
  [ ("Processing " ++ stn ++ ": ")%string;
    match try_station remote df_exist stn with
    | inr df_new =>
        if (0 <? List.length df_new)%nat
        then (string_of_nat (List.length df_new) ++ " new months" ++ nl)%string
        else nl
    | inl e => format_exc e
    end ].

(** Everything a run stages, station after station. *)
Definition all_staged (remote : Remote) (df_exist : list record)
  : list record :=
  flat_map (staged remote df_exist) (unique (map station df_exist)).

Definition first_of_month (d : datetime) : Prop :=
  exists y m, 1 <= m <= 12 /\ d = date y m 1.

(** The invariant of the persisted table: first-of-month dates, and at most
    one row per station and month. *)
Definition well_formed (df : list record) : Prop :=
  Forall (fun r => first_of_month (rec_month r)) df /\
  NoDup (map key df).

Definition start_of (p : params) : datetime :=
  let '(y, m, d) := start_ts p in date y m d.

(** The service returns no reading from before the requested start. *)
Definition honours_start (remote : Remote) : Prop :=
  forall url p resp d rs,
    remote url p = inr resp ->
    data resp = Some d ->
    readings d = Some rs ->
    Forall (fun r => 1 <= month (fst r) <= 12 /\
                     dt_leb (start_of p) (fst r) = true) rs.

(** A service over a store that does not change between runs: for a
    sensor it knows, it returns the stored readings that are at or after
    the requested start; for any other it reports an error. *)
Definition archive_remote (store : string -> option (list reading))
  : Remote :=
  fun url p =>
    match store url with
    | Some rs =>
        ret (mk_response
               (Some "success"%string)
               (Some (mk_payload "{...}"
                        (Some (filter (fun r => dt_leb (start_of p) (fst r))
                                      rs)))))
    | None =>
        ret (mk_response (Some "error"%string)
                         (Some (mk_payload "unknown sensor" None)))
    end.

Definition valid_store (store : string -> option (list reading)) : Prop :=
  forall url rs, store url = Some rs ->
                 Forall (fun r => valid_timestamp (fst r)) rs.


(* ================================================================== *)
(** * Sample data                                                      *)
(* ================================================================== *)

(** A service that answers every request with the same readings. *)
Definition serve (rs : list reading) : Remote :=
  fun _ _ => ret (mk_response (Some "success"%string)
                              (Some (mk_payload "{...}" (Some rs)))).

(** A few readings in January and in March 2018 and none in February. *)
Definition gap_readings : list reading :=
  [ (mk_datetime 2018 1 10 0 30 0 0, 50 # 1);
    (mk_datetime 2018 1 10 1 30 0 0, 56 # 1);
    (mk_datetime 2018 3 2 7 30 0 0, 40 # 1) ].


(** A service whose answer reports success but carries no readings. *)
Definition serve_no_readings : Remote :=
  fun _ _ => ret (mk_response (Some "success"%string)
                              (Some (mk_payload "{}" None))).

(** Every hour of [n] consecutive days from day [first] of a month, all at
    temperature [t]. *)
Definition span (y m : Z) (first n : nat) (t : Q) : list reading :=
  flat_map (fun d =>
              map (fun h => (mk_datetime y m (Z.of_nat d) (Z.of_nat h) 30 0 0,
                             t))
                  (seq 0 24))
           (seq first n).

(** Sensor PAED in 2018: 28 days of January (coverage 672/744), 21 days of
    February (504/672 = 0.75), nothing in March, 21 days of April
    (504/720, exactly 0.7). *)
Definition paed_readings : list reading :=
  (span 2018 1 1 1 (36 # 1) ++ span 2018 1 2 27 (70 # 1)
   ++ span 2018 2 1 21 (70 # 1)
   ++ span 2018 4 1 21 (70 # 1))%list.

(** The service of the sample runs: it knows the sensor of PAED only. *)
Definition archive : Remote :=
  archive_remote
    (fun url => if String.eqb url (BMON_URL "PAED_temp")
                then Some paed_readings else None).

(** Two stations, PAFA before PAED, two months each. *)
Definition two_stations : list record :=
  [ mk_record "PAFA" (date 2017 11 1) (Num (1900 # 1)) (Num (2050 # 1));
    mk_record "PAFA" (date 2017 12 1) (Num (2300 # 1)) (Num (2455 # 1));
    mk_record "PAED" (date 2017 11 1) (Num (900 # 1)) (Num (1050 # 1));
    mk_record "PAED" (date 2017 12 1) (Num (1200 # 1)) (Num (1355 # 1)) ].

(* ================================================================== *)
(** * Further notions                                                  *)
(* ================================================================== *)

(** The first day of the month after the month of [d], at the time of day
    of [d]. *)
Definition next_month_start (d : datetime) : datetime :=
  if month d <? 12
  then mk_datetime (year d) (month d + 1) 1
                   (hour d) (minute d) (second d) (microsecond d)
  else mk_datetime (year d + 1) 1 1
                   (hour d) (minute d) (second d) (microsecond d).

(** The hour of the calendar a timestamp falls in. *)
Definition hour_slot (d : datetime) : Z * Z * Z * Z :=
  (year d, month d, day d, hour d).

Definition one_reading_per_hour (rs : list reading) : Prop :=
  NoDup (map (fun r => hour_slot (fst r)) rs).

(** A persisted row whose degree-day values are numbers with
    [0 <= hdd60 <= hdd65]. *)
Definition record_ordered (r : record) : Prop :=
  exists a b, hdd60 r = Num a /\ hdd65 r = Num b /\
              (0 <= a)%Q /\ (a <= b)%Q.


(** A service that cannot be reached. *)
Definition offline : Remote :=
  fun _ _ => raise (mk_exn "requests.exceptions.ConnectionError"
                           "connection refused").

(** PAED with a single month, PAFA with two. *)
Definition lone_paed : list record :=
  [ mk_record "PAED" (date 2017 12 1) (Num (1200 # 1)) (Num (1355 # 1));
    mk_record "PAFA" (date 2017 11 1) (Num (1900 # 1)) (Num (2050 # 1));
    mk_record "PAFA" (date 2017 12 1) (Num (2300 # 1)) (Num (2455 # 1)) ].

(** Division by the 24 hours of a day, as a multiplication. *)
Ltac by_24 := unfold Qdiv; change (/ 24)%Q with (1 # 24)%Q.

(* ================================================================== *)
(** * Calendar facts                                                   *)
(* ================================================================== *)

Section Calendar.

Lemma days_in_month_cases y m :
  days_in_month y m = 28 \/ days_in_month y m = 29 \/
  days_in_month y m = 30 \/ days_in_month y m = 31.
Proof.
  unfold days_in_month.
  destruct (m =? 2); [destruct (is_leap y); auto|].
  destruct ((m =? 4) || (m =? 6) || (m =? 9) || (m =? 11)); auto.
Qed.

Lemma days_in_month_bounds y m : 28 <= days_in_month y m <= 31.
Proof. destruct (days_in_month_cases y m) as [H|[H|[H|H]]]; lia. Qed.

Lemma add_days_S n d : add_days (S n) d = next_day (add_days n d).
Proof. reflexivity. Qed.

Lemma add_days_plus n k d : add_days (n + k) d = add_days n (add_days k d).
Proof. unfold add_days. apply Nat.iter_add. Qed.

(** As long as the month has days left, adding days only moves the day. *)
Lemma add_days_within n d :
  day d + Z.of_nat n <= days_in_month (year d) (month d) ->
  add_days n d = set_day d (day d + Z.of_nat n).
Proof.
  induction n as [|n IH]; intros Hle.
  - destruct d; unfold set_day; simpl. f_equal. lia.
  - rewrite add_days_S, IH by lia.
    unfold next_day, set_day; simpl.
    destruct (Z.ltb_spec (day d + Z.of_nat n)
                (days_in_month (year d) (month d))) as [_|Hge]; [|lia].
    f_equal. lia.
Qed.

(** Stepping off the last day of a month. *)
Lemma next_day_last d :
  day d = days_in_month (year d) (month d) ->
  next_day d =
    if month d <? 12
    then mk_datetime (year d) (month d + 1) 1
                     (hour d) (minute d) (second d) (microsecond d)
    else mk_datetime (year d + 1) 1 1
                     (hour d) (minute d) (second d) (microsecond d).
Proof.
  intros Hd. unfold next_day. rewrite Hd, Z.ltb_irrefl. reflexivity.
Qed.

(** From the first of a month, [len] days lead to the first of the next. *)
Lemma add_days_month_length d :
  day d = 1 ->
  add_days (Z.to_nat (days_in_month (year d) (month d))) d =
    if month d <? 12
    then mk_datetime (year d) (month d + 1) 1
                     (hour d) (minute d) (second d) (microsecond d)
    else mk_datetime (year d + 1) 1 1
                     (hour d) (minute d) (second d) (microsecond d).
Proof.
  intros H1.
  pose proof (days_in_month_bounds (year d) (month d)) as Hb.
  replace (Z.to_nat (days_in_month (year d) (month d)))
    with (S (Z.to_nat (days_in_month (year d) (month d) - 1))) by lia.
  rewrite add_days_S, add_days_within by lia.
  rewrite next_day_last; simpl; [reflexivity | lia].
Qed.

Lemma month_floor_add_32 d :
  day d = 1 ->
  month_floor (add_days 32 d) = following_month d.
Proof.
  intros H1.
  pose proof (days_in_month_bounds (year d) (month d)) as Hb.
  set (len := Z.to_nat (days_in_month (year d) (month d))).
  replace 32%nat with ((32 - len) + len)%nat by (subst len; lia).
  rewrite add_days_plus. subst len.
  rewrite add_days_month_length by assumption.
  unfold following_month.
  pose proof (days_in_month_bounds (year d) (month d + 1)) as Hb1.
  pose proof (days_in_month_bounds (year d + 1) 1) as Hb2.
  destruct (month d <? 12); rewrite add_days_within;
    try reflexivity; cbn [day year month]; lia.
Qed.

Lemma date_of_month_floor d :
  date (year (month_floor d)) (month (month_floor d)) (day (month_floor d))
  = month_floor d.
Proof. reflexivity. Qed.

Lemma month_ord_date y m k : month_ord (date y m k) = y * 12 + (m - 1).
Proof. reflexivity. Qed.

Lemma ord_div y m : 1 <= m <= 12 -> (y * 12 + (m - 1)) / 12 = y.
Proof.
  intros Hm. symmetry. apply (Z.div_unique _ 12 y (m - 1)); lia.
Qed.

Lemma ord_mod y m : 1 <= m <= 12 -> (y * 12 + (m - 1)) mod 12 + 1 = m.
Proof.
  intros Hm.
  assert ((y * 12 + (m - 1)) mod 12 = m - 1) as ->; [|lia].
  symmetry. apply (Z.mod_unique _ 12 y (m - 1)); lia.
Qed.

Lemma month_end_ord i : month_ord (month_end i) = i.
Proof.
  unfold month_end. rewrite month_ord_date.
  pose proof (Z.div_mod i 12 ltac:(lia)). lia.
Qed.

Lemma month_ord_following d :
  1 <= month d <= 12 ->
  month_ord (following_month d) = month_ord d + 1.
Proof.
  intros Hm. unfold following_month.
  destruct (Z.ltb_spec (month d) 12); rewrite month_ord_date;
    unfold month_ord; lia.
Qed.

End Calendar.

(* ================================================================== *)
(** * The monthly buckets                                              *)
(* ================================================================== *)

Section Buckets.

Lemma in_months_from x n : forall lo,
  In x (months_from lo n) <-> lo <= x < lo + Z.of_nat n.
Proof.
  induction n as [|n IH]; intros lo; simpl months_from.
  - split; [intros [] | lia].
  - simpl In. rewrite IH. lia.
Qed.


Lemma fold_min_spec a l :
  In (fold_right Z.min a l) (a :: l) /\
  forall x, In x (a :: l) -> fold_right Z.min a l <= x.
Proof.
  induction l as [|b l [IHin IHle]]; simpl.
  - split; [auto | intros x [<-|[]]; lia].
  - split.
    + destruct (Z.min_spec b (fold_right Z.min a l)) as [[_ ->]|[_ ->]];
        [auto | destruct IHin; auto].
    + intros x [<-|[<-|Hx]].
      * specialize (IHle a (or_introl eq_refl)). lia.
      * lia.
      * specialize (IHle x (or_intror Hx)). lia.
Qed.

Lemma fold_max_spec a l :
  In (fold_right Z.max a l) (a :: l) /\
  forall x, In x (a :: l) -> x <= fold_right Z.max a l.
Proof.
  induction l as [|b l [IHin IHle]]; simpl.
  - split; [auto | intros x [<-|[]]; lia].
  - split.
    + destruct (Z.max_spec b (fold_right Z.max a l)) as [[_ ->]|[_ ->]];
        [destruct IHin; auto | auto].
    + intros x [<-|[<-|Hx]].
      * specialize (IHle a (or_introl eq_refl)). lia.
      * lia.
      * specialize (IHle x (or_intror Hx)). lia.
Qed.

(** The buckets are the months between two index entries. *)
Lemma in_bin_ords index i :
  In i (bin_ords index) <->
  exists a b, In a index /\ In b index /\ month_ord a <= i <= month_ord b.
Proof.
  destruct index as [|d ds]; simpl bin_ords.
  - split; [intros [] | intros (a & _ & [] & _)].
  - destruct (fold_min_spec (month_ord d) (map month_ord ds)) as [Hlo_in Hlo].
    destruct (fold_max_spec (month_ord d) (map month_ord ds)) as [Hhi_in Hhi].
    change (month_ord d :: map month_ord ds)
      with (map month_ord (d :: ds)) in *.
    rewrite in_months_from. split.
    + intros Hi.
      apply in_map_iff in Hlo_in as (a & Ha & Hain).
      apply in_map_iff in Hhi_in as (b & Hb & Hbin).
      exists a, b. repeat split; auto; lia.
    + intros (a & b & Ha & Hb & Hi).
      specialize (Hlo _ (in_map month_ord _ _ Ha)).
      specialize (Hhi _ (in_map month_ord _ _ Hb)). lia.
Qed.


Lemma combine_map {A B C} (f : A -> B) (g : A -> C) l :
  combine (map f l) (map g l) = map (fun x => (f x, g x)) l.
Proof. induction l; simpl; congruence. Qed.

Lemma in_bin_map {A B} (f : A -> B) i (df : list (datetime * A)) :
  in_bin i (map (fun r => (fst r, f (snd r))) df) = map f (in_bin i df).
Proof.
  unfold in_bin. induction df as [|r df IH]; simpl; [reflexivity|].
  destruct (month_ord (fst r) =? i); simpl; congruence.
Qed.

Lemma monthly_table_rows rs :
  monthly_table rs = map (bucket_row rs) (bin_ords (map fst rs)).
Proof.
  unfold monthly_table, resample.
  rewrite !map_map. cbn [fst snd].
  rewrite (map_ext (fun x : reading => fst x) fst) by reflexivity.
  rewrite combine_map, map_map, combine_map, combine_map, map_map.
  apply map_ext. intros i. cbn [fst snd].
  rewrite (in_bin_map (fun x => (hdd60_hour x, hdd65_hour x))).
  rewrite !map_map. reflexivity.
Qed.

Lemma idx_month_bucket rs i : month_ord (idx_month (bucket_row rs i)) = i.
Proof.
  unfold bucket_row; cbn [idx_month]. rewrite month_ord_date.
  pose proof (Z.div_mod i 12 ltac:(lia)). lia.
Qed.



End Buckets.

(* ================================================================== *)
(** * Arithmetic of the degree-day columns                             *)
(* ================================================================== *)

Section DegreeDays.

Local Open Scope Q_scope.

Lemma Qlt_bool_iff x y : Qlt_bool x y = true <-> x < y.
Proof.
  unfold Qlt_bool. rewrite negb_true_iff, <- not_true_iff_false, Qle_bool_iff.
  split; [apply Qnot_le_lt | apply Qlt_not_le].
Qed.

Lemma Qlt_bool_false x y : Qlt_bool x y = false <-> y <= x.
Proof.
  unfold Qlt_bool. now rewrite negb_false_iff, Qle_bool_iff.
Qed.



(** Per hour, base 60 is clamped at zero and never exceeds base 65. *)
Lemma hdd_hour_ordered x : 0 <= hdd60_hour x /\ hdd60_hour x <= hdd65_hour x.
Proof.
  unfold hdd60_hour, hdd65_hour.
  destruct (Qlt_bool x 60) eqn:E60; destruct (Qlt_bool x 65) eqn:E65;
    try apply Qlt_bool_iff in E60; try apply Qlt_bool_iff in E65;
    try apply Qlt_bool_false in E60; try apply Qlt_bool_false in E65;
    by_24; split; lra.
Qed.



Lemma Qsum_le (f g : Q -> Q) xs :
  (forall x, f x <= g x) -> Qsum (map f xs) <= Qsum (map g xs).
Proof.
  intros H. induction xs as [|x xs IH]; simpl; [apply Qle_refl|].
  apply Qplus_le_compat; auto.
Qed.

Lemma Qsum_nonneg (f : Q -> Q) xs :
  (forall x, 0 <= f x) -> 0 <= Qsum (map f xs).
Proof.
  intros H. induction xs as [|x xs IH]; simpl; [apply Qle_refl|].
  specialize (H x). lra.
Qed.

Lemma length_pos_Q {A} (xs : list A) :
  xs <> [] -> 0 < inject_Z (Z.of_nat (List.length xs)).
Proof.
  intros Hne. change 0 with (inject_Z 0). rewrite <- Zlt_Qlt.
  destruct xs; [congruence | simpl; lia].
Qed.

Lemma total_hours_pos y m : 0 < inject_Z (days_in_month y m * 24).
Proof.
  change 0 with (inject_Z 0). rewrite <- Zlt_Qlt.
  pose proof (days_in_month_bounds y m). lia.
Qed.



Lemma Qmean_le (f g : Q -> Q) xs :
  xs <> [] -> (forall x, f x <= g x) ->
  Qmean (map f xs) <= Qmean (map g xs).
Proof.
  intros Hne H. unfold Qmean. rewrite !length_map.
  pose proof (length_pos_Q xs Hne) as Hpos.
  apply Qle_shift_div_l; [assumption|].
  unfold Qdiv. rewrite <- Qmult_assoc, (Qmult_comm (/ _)), Qmult_inv_r by lra.
  rewrite Qmult_1_r. now apply Qsum_le.
Qed.

Lemma Qmean_nonneg (f : Q -> Q) xs :
  xs <> [] -> (forall x, 0 <= f x) -> 0 <= Qmean (map f xs).
Proof.
  intros Hne H. unfold Qmean. rewrite length_map.
  apply Qle_shift_div_l; [now apply length_pos_Q|].
  rewrite Qmult_0_l. now apply Qsum_nonneg.
Qed.

Lemma mean_map_Num (f : Q -> Q) xs :
  xs <> [] -> mean (map f xs) = Num (Qmean (map f xs)).
Proof. destruct xs; [congruence | reflexivity]. Qed.

End DegreeDays.

(* ================================================================== *)
(** * The aggregator                                                   *)
(* ================================================================== *)

Section Aggregator.

Variable remote : Remote.
Variable stn : string.
Variable start_date : datetime.

Lemma dd_for_site_answers rs :
  answers remote stn start_date rs ->
  dd_for_site remote stn start_date = inr (monthly_table rs).
Proof.
  intros (resp & d & Hreq & Hst & Hd & Hrs).
  unfold dd_for_site. rewrite Hreq; cbn [bind].
  rewrite Hst; cbn [getitem ret bind]. rewrite String.eqb_refl.
  rewrite Hd; cbn [getitem ret bind]. rewrite Hrs. reflexivity.
Qed.

Lemma dd_for_site_inr dfm :
  dd_for_site remote stn start_date = inr dfm ->
  exists rs, answers remote stn start_date rs /\ dfm = monthly_table rs.
Proof.
  unfold dd_for_site, answers.
  destruct (request remote stn start_date) as [e|resp]; [discriminate|].
  cbn [bind]. destruct (status resp) as [st|] eqn:Hst; [|discriminate].
  cbn [getitem ret bind].
  destruct (String.eqb_spec st "success") as [->|_];
    (destruct (data resp) as [d|] eqn:Hd; [|discriminate]);
    cbn [getitem ret raise bind]; [|discriminate].
  destruct (readings d) as [rs|] eqn:Hrs; cbn [getitem ret raise bind];
    [|discriminate].
  intros [= <-]. exists rs. split; [exists resp, d|]; auto.
Qed.

(** For valid timestamps the bucket of a month holds the month's readings. *)
Lemma in_bin_readings_in rs y m :
  timestamps_ok rs -> 1 <= m <= 12 ->
  in_bin (y * 12 + (m - 1)) rs = map snd (readings_in y m rs).
Proof.
  intros Hok Hm. unfold in_bin, readings_in. f_equal.
  apply filter_ext_in. intros r Hr.
  pose proof (proj1 (Forall_forall _ _) Hok r Hr) as Hr12. cbn beta in Hr12.
  unfold month_ord.
  destruct (Z.eqb_spec (year (fst r)) y) as [->|Hy];
    destruct (Z.eqb_spec (month (fst r)) m) as [->|Hmm]; cbn [andb];
    [apply Z.eqb_refl | apply Z.eqb_neq; lia ..].
Qed.

Lemma bucket_row_month rs y m :
  1 <= m <= 12 ->
  bucket_row rs (y * 12 + (m - 1)) =
    let total_hours := days_in_month y m * 24 in
    let present := in_bin (y * 12 + (m - 1)) rs in
    mk_dd_row (date y m 1)
              (vmul (mean (map hdd60_hour present)) total_hours)
              (vmul (mean (map hdd65_hour present)) total_hours)
              (inject_Z (Z.of_nat (List.length present))
               / inject_Z total_hours).
Proof.
  intros Hm. unfold bucket_row. now rewrite ord_div, ord_mod.
Qed.

Lemma month_with_reading_in_table rs y m :
  timestamps_ok rs -> 1 <= m <= 12 ->
  readings_in y m rs <> [] ->
  In (bucket_row rs (y * 12 + (m - 1))) (monthly_table rs).
Proof.
  intros Hok Hm Hne. rewrite monthly_table_rows. apply in_map.
  destruct (readings_in y m rs) as [|r l] eqn:E; [congruence|].
  assert (In r (readings_in y m rs)) as Hr by (rewrite E; now left).
  apply filter_In in Hr as [Hr Hym].
  apply andb_true_iff in Hym as [Hy Hmo].
  apply Z.eqb_eq in Hy, Hmo.
  apply in_bin_ords. exists (fst r), (fst r).
  unfold month_ord. rewrite Hy, Hmo.
  repeat split; try apply in_map; auto; lia.
Qed.

Lemma row_of_month_unique rs y m row :
  1 <= m <= 12 ->
  In row (monthly_table rs) -> idx_month row = date y m 1 ->
  row = bucket_row rs (y * 12 + (m - 1)).
Proof.
  intros Hm Hin Hidx. rewrite monthly_table_rows in Hin.
  apply in_map_iff in Hin as (i & <- & _).
  apply (f_equal month_ord) in Hidx.
  rewrite idx_month_bucket, month_ord_date in Hidx. now subst.
Qed.

End Aggregator.

(* ================================================================== *)
(** * The order of the persisted table                                 *)
(* ================================================================== *)

Section Order.

Lemma lex_compare_refl a : lex_compare a a = Eq.
Proof. induction a as [|x a IH]; simpl; [|rewrite Z.compare_refl]; auto. Qed.

Lemma lex_compare_antisym a : forall b,
  lex_compare b a = CompOpp (lex_compare a b).
Proof.
  induction a as [|x a IH]; intros [|y b]; simpl; auto.
  rewrite (Z.compare_antisym x y).
  destruct (x ?= y); simpl; auto.
Qed.

Lemma lex_compare_eq a : forall b, lex_compare a b = Eq -> a = b.
Proof.
  induction a as [|x a IH]; intros [|y b]; simpl; try discriminate; auto.
  destruct (Z.compare_spec x y); try discriminate.
  intros Hab. f_equal; auto.
Qed.

(** [<=] on field lists is transitive. *)
Lemma lex_compare_trans a : forall b c,
  lex_compare a b <> Gt -> lex_compare b c <> Gt -> lex_compare a c <> Gt.
Proof.
  induction a as [|x a IH]; intros [|y b] [|z c]; simpl; try congruence.
  destruct (Z.compare_spec x y), (Z.compare_spec y z),
    (Z.compare_spec x z); try congruence; try lia.
  apply IH.
Qed.

Lemma dt_leb_refl a : dt_leb a a = true.
Proof. unfold dt_leb, dt_compare. now rewrite lex_compare_refl. Qed.

Lemma dt_leb_total a b : dt_leb a b = true \/ dt_leb b a = true.
Proof.
  unfold dt_leb, dt_compare.
  rewrite (lex_compare_antisym (fields a) (fields b)).
  destruct (lex_compare (fields a) (fields b)); simpl; auto.
Qed.

Lemma dt_leb_iff a b : dt_leb a b = true <-> dt_compare a b <> Gt.
Proof. unfold dt_leb. destruct (dt_compare a b); split; congruence. Qed.

Lemma dt_leb_trans a b c :
  dt_leb a b = true -> dt_leb b c = true -> dt_leb a c = true.
Proof. rewrite !dt_leb_iff. apply lex_compare_trans. Qed.

Lemma dt_leb_antisym a b : dt_leb a b = true -> dt_leb b a = true -> a = b.
Proof.
  rewrite !dt_leb_iff. unfold dt_compare.
  rewrite (lex_compare_antisym (fields a) (fields b)).
  destruct (lex_compare (fields a) (fields b)) eqn:E; simpl; try congruence.
  intros _ _. apply lex_compare_eq in E.
  destruct a, b. unfold fields in E. simpl in E. congruence.
Qed.

(** Chronological order refines the order of the months. *)
Lemma dt_leb_month_ord a b :
  1 <= month a <= 12 -> 1 <= month b <= 12 ->
  dt_leb a b = true -> month_ord a <= month_ord b.
Proof.
  intros Ha Hb. rewrite dt_leb_iff. unfold dt_compare, fields, month_ord.
  cbn [lex_compare].
  destruct (Z.compare_spec (year a) (year b)); [| lia | congruence].
  destruct (Z.compare_spec (month a) (month b)); [lia | lia | congruence].
Qed.

Lemma string_compare_refl s : String.compare s s = Eq.
Proof.
  pose proof (String.compare_antisym s s) as H.
  destruct (String.compare s s); simpl in H; congruence.
Qed.

Lemma string_compare_lt_trans a b c :
  String.compare a b = Lt -> String.compare b c = Lt ->
  String.compare a c = Lt.
Proof.
  change String.compare with String_as_OT.cmp.
  rewrite !String_as_OT.cmp_lt. apply String_as_OT.lt_trans.
Qed.

Lemma key_leb_iff a b : key_leb a b = true <-> key_le a b.
Proof.
  unfold key_leb, key_le.
  destruct (String.compare (station a) (station b)) eqn:E.
  - apply String.compare_eq_iff in E. rewrite dt_leb_iff.
    split; [auto | intros [|[]]; [discriminate | assumption]].
  - split; auto.
  - split; [discriminate|].
    intros [|[Heq _]]; [discriminate|].
    rewrite Heq, string_compare_refl in E. discriminate.
Qed.

Lemma key_leb_total a b : key_leb a b = true \/ key_leb b a = true.
Proof.
  unfold key_leb.
  rewrite (String.compare_antisym (station a) (station b)).
  destruct (String.compare (station b) (station a)); simpl; auto.
  apply dt_leb_total.
Qed.

Lemma key_leb_trans a b c :
  key_leb a b = true -> key_leb b c = true -> key_leb a c = true.
Proof.
  unfold key_leb.
  destruct (String.compare (station a) (station b)) eqn:Eab;
    destruct (String.compare (station b) (station c)) eqn:Ebc;
    try discriminate.
  - apply String.compare_eq_iff in Eab. rewrite Eab, Ebc.
    apply dt_leb_trans.
  - apply String.compare_eq_iff in Eab. now rewrite Eab, Ebc.
  - apply String.compare_eq_iff in Ebc. now rewrite <- Ebc, Eab.
  - now rewrite (string_compare_lt_trans _ _ _ Eab Ebc).
Qed.

Lemma key_le_trans a b c : key_le a b -> key_le b c -> key_le a c.
Proof. rewrite <- !key_leb_iff. apply key_leb_trans. Qed.

End Order.

(* ================================================================== *)
(** * Properties of the aggregator                                     *)
(* ================================================================== *)

(** C1.  For a calendar month of [D] days in which [H >= 1] readings are
    present, the table returned by [dd_for_site] has one row for that
    month, and its coverage is exactly [H / (D * 24)]. *)
Theorem coverage_is_present_over_total
  (remote : Remote) (stn : string) (start_date : datetime)
  (rs : list reading) (y m : Z) :
  answers remote stn start_date rs ->
  timestamps_ok rs ->
  1 <= m <= 12 ->
  let H := List.length (readings_in y m rs) in
  let D := days_in_month y m in
  (1 <= H)%nat ->
  exists dfm row,
    dd_for_site remote stn start_date = inr dfm /\
    In row dfm /\
    idx_month row = date y m 1 /\
    (forall row', In row' dfm -> idx_month row' = date y m 1 -> row' = row) /\
    coverage row = (inject_Z (Z.of_nat H) / inject_Z (D * 24))%Q.
Proof.
  intros Hans Hok Hm H D HH.
  assert (readings_in y m rs <> []) as Hne.
  { subst H. destruct (readings_in y m rs); [simpl in HH; lia | congruence]. }
  exists (monthly_table rs), (bucket_row rs (y * 12 + (m - 1))).
  split; [now apply dd_for_site_answers|].
  split; [now apply month_with_reading_in_table|].
  rewrite bucket_row_month by assumption. cbn zeta.
  split; [reflexivity|]. split.
  - intros row' Hin Hidx.
    rewrite (row_of_month_unique rs y m row') by assumption.
    now apply bucket_row_month.
  - cbn [coverage]. rewrite in_bin_readings_in by assumption.
    now rewrite length_map.
Qed.

Lemma coverage_is_present_over_total_witness :
  exists dfm row,
    dd_for_site (serve gap_readings) "PAED" (date 2018 1 5) = inr dfm /\
    In row dfm /\
    idx_month row = date 2018 1 1 /\
    (forall row', In row' dfm -> idx_month row' = date 2018 1 1 ->
                  row' = row) /\
    coverage row = (inject_Z 2 / inject_Z (31 * 24))%Q.
Proof.
  apply (coverage_is_present_over_total
           (serve gap_readings) "PAED" (date 2018 1 5) gap_readings 2018 1).
  - exists (mk_response (Some "success"%string)
                        (Some (mk_payload "{...}" (Some gap_readings)))),
           (mk_payload "{...}" (Some gap_readings)).
    repeat split; reflexivity.
  - unfold timestamps_ok, gap_readings. repeat constructor; simpl; lia.
  - lia.
  - simpl. lia.
Defined.


Lemma serve_answers rs stn start_date :
  answers (serve rs) stn start_date rs.
Proof.
  exists (mk_response (Some "success"%string)
                      (Some (mk_payload "{...}" (Some rs)))),
         (mk_payload "{...}" (Some rs)).
  repeat split; reflexivity.
Qed.


(** C10, as stated, fails: a month between two months with readings that
    has no reading of its own is in the table with [NaN] in both columns. *)
Lemma hdd_ordered_counterexample :
  exists dfm row,
    dd_for_site (serve gap_readings) "PAED" (date 2018 1 5) = inr dfm /\
    In row dfm /\ ~ hdd_ordered row.
Proof.
  exists (monthly_table gap_readings),
         (mk_dd_row (date 2018 2 1) NaN NaN (0 # 672)).
  split; [reflexivity|]. split.
  - right; left. reflexivity.
  - intros (a & b & Ha & _). discriminate Ha.
Qed.

(** C10, amended.  In a successful result, a month that has at least one
    reading satisfies [0 <= hdd60 <= hdd65]; a month of the result without
    any reading has [NaN] in both columns. *)
Theorem hdd_ordered_where_readings
  (remote : Remote) (stn : string) (start_date : datetime)
  (rs : list reading) :
  answers remote stn start_date rs ->
  timestamps_ok rs ->
  exists dfm,
    dd_for_site remote stn start_date = inr dfm /\
    forall row, In row dfm ->
      ((exists r, In r rs /\ month_floor (fst r) = idx_month row) ->
       hdd_ordered row) /\
      (~ (exists r, In r rs /\ month_floor (fst r) = idx_month row) ->
       m_hdd60 row = NaN /\ m_hdd65 row = NaN).
Proof.
  intros Hans Hok. exists (monthly_table rs).
  split; [now apply dd_for_site_answers|].
  intros row Hin. rewrite monthly_table_rows in Hin.
  apply in_map_iff in Hin as (i & <- & _).
  set (y := i / 12). set (m := i mod 12 + 1).
  assert (1 <= m <= 12) as Hm
    by (subst m; pose proof (Z.mod_pos_bound i 12); lia).
  assert (i = y * 12 + (m - 1)) as Hi
    by (subst y m; pose proof (Z.div_mod i 12 ltac:(lia)); lia).
  rewrite Hi, bucket_row_month by assumption. cbn zeta.
  rewrite in_bin_readings_in by assumption.
  cbn [idx_month m_hdd60 m_hdd65].
  destruct (readings_in y m rs) as [|r0 l] eqn:E.
  - split; [|intros _; split; reflexivity].
    intros (r & Hr & Hfl). exfalso.
    assert (In r (readings_in y m rs)) as Hin; [|rewrite E in Hin; exact Hin].
    apply filter_In. split; [assumption|].
    unfold month_floor, date in Hfl. injection Hfl as -> ->.
    now rewrite !Z.eqb_refl.
  - split; [intros _ | intros Hno; exfalso; apply Hno].
    + set (temps := map snd (r0 :: l)).
      assert (temps <> []) as Hne by discriminate.
      rewrite !mean_map_Num by assumption. cbn [vmul].
      eexists _, _. split; [reflexivity|]. split; [reflexivity|].
      pose proof (total_hours_pos y m) as Hpos.
      split.
      * apply Qmult_le_0_compat; [|now apply Qlt_le_weak].
        apply Qmean_nonneg; [assumption | intros; apply hdd_hour_ordered].
      * apply Qmult_le_compat_r; [|now apply Qlt_le_weak].
        apply Qmean_le; [assumption | intros; apply hdd_hour_ordered].
    + assert (In r0 (readings_in y m rs)) as Hr0 by (rewrite E; now left).
      apply filter_In in Hr0 as [Hr0 Hym].
      apply andb_true_iff in Hym as [Hy Hmo].
      apply Z.eqb_eq in Hy, Hmo.
      exists r0. split; [assumption|].
      unfold month_floor, date. now rewrite Hy, Hmo.
Qed.

Lemma hdd_ordered_where_readings_witness :
  exists dfm,
    dd_for_site (serve gap_readings) "PAED" (date 2018 1 5) = inr dfm /\
    forall row, In row dfm ->
      ((exists r, In r gap_readings /\ month_floor (fst r) = idx_month row) ->
       hdd_ordered row) /\
      (~ (exists r, In r gap_readings /\
                    month_floor (fst r) = idx_month row) ->
       m_hdd60 row = NaN /\ m_hdd65 row = NaN).
Proof.
  apply (hdd_ordered_where_readings
           (serve gap_readings) "PAED" (date 2018 1 5) gap_readings).
  - apply serve_answers.
  - unfold timestamps_ok, gap_readings. repeat constructor; simpl; lia.
Defined.







(** C8.  From the first day of a month, of whatever length from 28 to 31
    days, the anchor [last_month + 32 days] floored to the first instant of
    its month is the first day of the month right after: never the same
    month, never two months later. *)
Theorem anchor_is_following_month (last_mo : datetime) :
  day last_mo = 1 ->
  1 <= month last_mo <= 12 ->
  28 <= days_in_month (year last_mo) (month last_mo) <= 31 /\
  month_floor (add_days 32 last_mo) = following_month last_mo /\
  month_ord (month_floor (add_days 32 last_mo)) = month_ord last_mo + 1.
Proof.
  intros Hday Hmonth.
  split; [apply days_in_month_bounds|].
  rewrite month_floor_add_32 by assumption.
  split; [reflexivity | now apply month_ord_following].
Qed.

Lemma anchor_is_following_month_witness :
  28 <= days_in_month 2018 2 <= 31 /\
  month_floor (add_days 32 (date 2018 2 1)) = date 2018 3 1 /\
  month_ord (month_floor (add_days 32 (date 2018 2 1))) = 2018 * 12 + 2.
Proof.
  apply (anchor_is_following_month (date 2018 2 1)); simpl; lia.
Defined.

(* ================================================================== *)
(** * [sort_values]                                                    *)
(* ================================================================== *)

Section Sorting.

Lemma insert_perm r l : Permutation (insert r l) (r :: l).
Proof.
  induction l as [|x l IH]; simpl; [reflexivity|].
  destruct (key_leb r x); [reflexivity|].
  rewrite IH. apply perm_swap.
Qed.

Lemma sort_values_perm l : Permutation (sort_values l) l.
Proof.
  induction l as [|x l IH]; simpl; [reflexivity|].
  rewrite insert_perm. now constructor.
Qed.

Lemma insert_sorted r l :
  StronglySorted key_le l -> StronglySorted key_le (insert r l).
Proof.
  induction 1 as [|x l Hl IH Hx]; simpl; [repeat constructor|].
  destruct (key_leb r x) eqn:E.
  - apply key_leb_iff in E. constructor; [now constructor|].
    constructor; [assumption|].
    eapply Forall_impl; [|exact Hx].
    intros y Hy. eapply key_le_trans; eassumption.
  - constructor; [assumption|].
    rewrite (insert_perm r l). constructor; [|assumption].
    apply key_leb_iff. destruct (key_leb_total r x); congruence.
Qed.

Lemma sort_values_sorted l : StronglySorted key_le (sort_values l).
Proof.
  induction l; simpl; [constructor | now apply insert_sorted].
Qed.

(** Sorting a sorted table leaves it as it is. *)
Lemma sort_values_sorted_id l :
  StronglySorted key_le l -> sort_values l = l.
Proof.
  induction 1 as [|x l Hl IH Hx]; simpl; [reflexivity|].
  rewrite IH. destruct l as [|y l]; [reflexivity|]. simpl.
  apply Forall_inv in Hx. apply key_leb_iff in Hx. now rewrite Hx.
Qed.

Lemma sort_values_idempotent l :
  sort_values (sort_values l) = sort_values l.
Proof. apply sort_values_sorted_id, sort_values_sorted. Qed.

(** In a sorted table, an earlier position holds a smaller or equal key. *)
Lemma sorted_positions l :
  StronglySorted key_le l ->
  forall i j a b,
    (i < j)%nat -> nth_error l i = Some a -> nth_error l j = Some b ->
    key_le a b.
Proof.
  induction 1 as [|x l Hl IH Hx]; intros i j a b Hij Ha Hb.
  - destruct i; discriminate.
  - destruct j as [|j]; [lia|]. simpl in Hb.
    destruct i as [|i]; simpl in Ha.
    + injection Ha as <-.
      apply nth_error_In in Hb.
      exact (proj1 (Forall_forall _ _) Hx b Hb).
    + apply (IH i j); auto. lia.
Qed.

(** Selecting a station commutes with sorting. *)
Lemma loc_insert r l stn :
  StronglySorted key_le l ->
  loc (insert r l) stn =
    if String.eqb (station r) stn then insert r (loc l stn) else loc l stn.
Proof.
  unfold loc.
  induction 1 as [|x l Hl IH Hx]; simpl.
  - destruct (String.eqb (station r) stn); reflexivity.
  - destruct (key_leb r x) eqn:E; simpl.
    + destruct (String.eqb (station r) stn) eqn:Er; [|reflexivity].
      destruct (String.eqb (station x) stn) eqn:Ex; simpl;
        [now rewrite E|].
      clear IH. induction l as [|y l IHl]; simpl; [reflexivity|].
      apply StronglySorted_inv in Hl as [Hl Hy].
      apply Forall_inv_tail in Hx as Hxl. apply Forall_inv in Hx.
      destruct (String.eqb (station y) stn) eqn:Ey; simpl.
      * assert (key_leb r y = true) as ->; [|reflexivity].
        apply key_leb_iff in Hx. eapply key_leb_trans; eassumption.
      * apply IHl; assumption.
    + rewrite IH.
      destruct (String.eqb (station r) stn) eqn:Er;
        destruct (String.eqb (station x) stn) eqn:Ex; simpl;
        try rewrite E; reflexivity.
Qed.

Lemma loc_sort_values l stn :
  loc (sort_values l) stn = sort_values (loc l stn).
Proof.
  induction l as [|x l IH]; simpl; [reflexivity|].
  rewrite loc_insert by apply sort_values_sorted. rewrite IH.
  unfold loc at 3. simpl.
  destruct (String.eqb (station x) stn); reflexivity.
Qed.

End Sorting.

(* ================================================================== *)
(** * The loop over the stations                                       *)
(* ================================================================== *)

Section Loop.

Variable remote : Remote.
Variable df_exist : list record.

Lemma filter_all {A} (f : A -> bool) l :
  (forall x, In x l -> f x = true) -> filter f l = l.
Proof.
  induction l as [|x l IH]; intros H; simpl; [reflexivity|].
  rewrite (H x (or_introl eq_refl)), IH; [reflexivity|].
  intros y Hy. apply H. now right.
Qed.

Lemma filter_none {A} (f : A -> bool) l :
  (forall x, In x l -> f x = false) -> filter f l = [].
Proof.
  induction l as [|x l IH]; intros H; simpl; [reflexivity|].
  rewrite (H x (or_introl eq_refl)). apply IH.
  intros y Hy. apply H. now right.
Qed.

Lemma in_unique x l : In x (unique l) <-> In x l.
Proof.
  induction l as [|y l IH]; simpl; [tauto|].
  rewrite filter_In, IH, negb_true_iff.
  destruct (String.eqb_spec y x) as [->|Hne]; [tauto|].
  intuition congruence.
Qed.

Lemma NoDup_unique l : NoDup (unique l).
Proof.
  induction l as [|y l IH]; simpl; constructor.
  - rewrite filter_In, String.eqb_refl. simpl. intros [_ H]. discriminate.
  - now apply NoDup_filter.
Qed.

(** The loop stages, for each station in turn, what [staged] says, and
    prints what [station_output] says; a station whose [try] body raised
    stages nothing and the loop goes on to the next one. *)
Lemma loop_spec stns : forall st,
  let st' := fold_left (process_station remote df_exist) stns st in
  concat (new_dfs st') =
    concat (new_dfs st) ++ flat_map (staged remote df_exist) stns /\
  stdout st' =
    stdout st ++ flat_map (station_output remote df_exist) stns.
Proof.
  induction stns as [|stn stns IH]; intros st; cbn zeta.
  - simpl. now rewrite !app_nil_r.
  - cbn [fold_left flat_map].
    destruct (IH (process_station remote df_exist st stn)) as [IHn IHo].
    rewrite IHn, IHo. clear IH IHn IHo.
    unfold process_station, staged, station_output.
    destruct (try_station remote df_exist stn) as [e|df_new];
      cbn [new_dfs stdout].
    + rewrite <- !app_assoc. auto.
    + destruct (Nat.ltb_spec 0 (List.length df_new)); cbn [new_dfs stdout].
      * rewrite concat_app. simpl concat.
        rewrite app_nil_r, <- !app_assoc. auto.
      * assert (df_new = []) as -> by (destruct df_new; simpl in *; [auto|lia]).
        rewrite <- !app_assoc. auto.
Qed.

Lemma df_final_eq :
  df_final remote df_exist =
    sort_values (df_exist ++ all_staged remote df_exist).
Proof.
  unfold df_final, main, all_staged. cbn [fst concat].
  now rewrite (proj1 (loop_spec _ (mk_state [] []))).
Qed.

Lemma stdout_eq :
  snd (main remote df_exist) =
    flat_map (station_output remote df_exist)
             (unique (map station df_exist)).
Proof.
  unfold main. cbn [snd].
  now rewrite (proj2 (loop_spec _ (mk_state [] []))).
Qed.

Lemma df_final_perm :
  Permutation (df_final remote df_exist)
              (df_exist ++ all_staged remote df_exist).
Proof. rewrite df_final_eq. apply sort_values_perm. Qed.

Lemma staged_station stn r :
  In r (staged remote df_exist stn) -> station r = stn.
Proof.
  unfold staged, to_records.
  destruct (try_station remote df_exist stn); [intros []|].
  rewrite in_map_iff. now intros (row & <- & _).
Qed.

Lemma in_all_staged r :
  In r (all_staged remote df_exist) <->
  In (station r) (map station df_exist) /\
  In r (staged remote df_exist (station r)).
Proof.
  unfold all_staged. rewrite in_flat_map. split.
  - intros (stn & Hstn & Hr).
    pose proof (staged_station _ _ Hr) as <-.
    split; [now apply in_unique | assumption].
  - intros [Hstn Hr]. exists (station r).
    split; [now apply in_unique | assumption].
Qed.

(** The rows of one station in the result: its old rows and what it
    staged, in month order. *)
Lemma loc_df_final stn :
  loc (df_final remote df_exist) stn =
    sort_values (loc df_exist stn ++
                 if in_dec string_dec stn (map station df_exist)
                 then staged remote df_exist stn else []).
Proof.
  rewrite df_final_eq, loc_sort_values. f_equal.
  unfold loc at 1. rewrite filter_app. f_equal.
  unfold all_staged.
  assert (forall stns, NoDup stns ->
            filter (fun r => String.eqb (station r) stn)
                   (flat_map (staged remote df_exist) stns) =
            if in_dec string_dec stn stns
            then staged remote df_exist stn else []) as Hgen.
  { induction 1 as [|s stns Hs Hnd IH]; [reflexivity|].
    cbn [flat_map]. rewrite filter_app, IH.
    assert (filter (fun r => String.eqb (station r) stn)
                   (staged remote df_exist s) =
            if String.eqb s stn then staged remote df_exist s else [])
      as ->.
    { destruct (String.eqb_spec s stn) as [->|Hne].
      - apply filter_all.
        intros r Hr. rewrite (staged_station _ _ Hr).
        apply String.eqb_refl.
      - apply filter_none.
        intros r Hr. rewrite (staged_station _ _ Hr).
        now apply String.eqb_neq. }
    destruct (String.eqb_spec s stn) as [->|Hne].
    - destruct (in_dec string_dec stn (stn :: stns)) as [_|Hno];
        [|exfalso; apply Hno; now left].
      destruct (in_dec string_dec stn stns); [contradiction|].
      apply app_nil_r.
    - destruct (in_dec string_dec stn stns) as [Hin|Hno];
        destruct (in_dec string_dec stn (s :: stns)) as [Hin'|Hno'];
        simpl in *; try reflexivity; exfalso; intuition. }
  rewrite Hgen by apply NoDup_unique.
  destruct (in_dec string_dec stn (unique (map station df_exist)))
    as [Hin|Hno];
    destruct (in_dec string_dec stn (map station df_exist)) as [Hin'|Hno'];
    try reflexivity; exfalso.
  - apply Hno'. now apply in_unique.
  - apply Hno. now apply in_unique.
Qed.

End Loop.

(* ================================================================== *)
(** * Properties of the merger                                         *)
(* ================================================================== *)

(** C6.  The persisted table is the existing rows followed by all staged
    rows, sorted by station and then by month: it has exactly those rows,
    and of two rows at different positions the earlier one has the smaller
    station, or the same station and a month that is not later. *)
Theorem final_is_sorted_concatenation
  (remote : Remote) (df_exist : list record) :
  let final := df_final remote df_exist in
  final = sort_values (df_exist ++ all_staged remote df_exist) /\
  Permutation final (df_exist ++ all_staged remote df_exist) /\
  StronglySorted key_le final /\
  forall i j a b,
    (i < j)%nat ->
    nth_error final i = Some a -> nth_error final j = Some b ->
    key_le a b.
Proof.
  cbn zeta. rewrite df_final_eq.
  split; [reflexivity|].
  split; [apply sort_values_perm|].
  split; [apply sort_values_sorted|].
  apply sorted_positions, sort_values_sorted.
Qed.

(** C4.  When the [try] body of one station raises, whatever the error,
    the run still returns; the output has the station's name followed by
    the class and the value of the error; every station of the table is
    processed; the rows of the failed station in the result are its rows of
    before; and every accepted row of a station that did not fail is in the
    result. *)
Theorem failed_station_is_isolated
  (remote : Remote) (df_exist : list record) (X : string) (e : exn) :
  In X (map station df_exist) ->
  try_station remote df_exist X = inl e ->
  let final := df_final remote df_exist in
  let out := snd (main remote df_exist) in
  main remote df_exist = (final, out) /\
  (exists before after,
     out = before
           ++ [("Processing " ++ X ++ ": ")%string; format_exc e]
           ++ after) /\
  (forall Y, In Y (map station df_exist) ->
             In ("Processing " ++ Y ++ ": ")%string out) /\
  loc final X = sort_values (loc df_exist X) /\
  Permutation (loc final X) (loc df_exist X) /\
  (forall Y df_new row,
     In Y (map station df_exist) ->
     try_station remote df_exist Y = inr df_new ->
     In row df_new ->
     In (mk_record Y (idx_month row) (m_hdd60 row) (m_hdd65 row)) final).
Proof.
  intros HX Hfail final out.
  assert (loc final X = sort_values (loc df_exist X)) as Hloc.
  { subst final. rewrite loc_df_final.
    unfold staged. rewrite Hfail.
    destruct (in_dec string_dec X (map station df_exist));
      now rewrite app_nil_r. }
  split; [subst final out; unfold df_final; now destruct (main _ _)|].
  split; [|split; [|split; [exact Hloc | split]]].
  - subst out. rewrite stdout_eq.
    apply in_unique, in_split in HX as (l1 & l2 & ->).
    rewrite flat_map_app. cbn [flat_map].
    exists (flat_map (station_output remote df_exist) l1),
           (flat_map (station_output remote df_exist) l2).
    unfold station_output at 2. now rewrite Hfail.
  - intros Y HY. subst out. rewrite stdout_eq.
    apply in_flat_map. exists Y. split; [now apply in_unique|].
    now left.
  - rewrite Hloc. apply sort_values_perm.
  - intros Y df_new row HY Hok Hrow. subst final.
    apply (Permutation_in _ (Permutation_sym (df_final_perm _ _))).
    apply in_or_app. right. apply in_all_staged. cbn [station].
    split; [assumption|].
    unfold staged. rewrite Hok. unfold to_records.
    now apply (in_map (fun r => mk_record Y (idx_month r)
                                          (m_hdd60 r) (m_hdd65 r))).
Qed.


(* ================================================================== *)
(** * One row per station and month                                    *)
(* ================================================================== *)

Section Uniqueness.

Lemma dt_max_cases a b :
  (dt_max a b = a \/ dt_max a b = b) /\
  dt_leb a (dt_max a b) = true /\ dt_leb b (dt_max a b) = true.
Proof.
  unfold dt_max. destruct (dt_leb a b) eqn:E.
  - repeat split; auto using dt_leb_refl.
  - repeat split; auto using dt_leb_refl.
    destruct (dt_leb_total a b); congruence.
Qed.

(** [max()] of a column: one of its entries, and no entry is later. *)
Lemma fold_dt_max_spec l : forall a,
  In (fold_left dt_max l a) (a :: l) /\
  forall x, In x (a :: l) -> dt_leb x (fold_left dt_max l a) = true.
Proof.
  induction l as [|b l IH]; intros a; cbn [fold_left].
  - split; [now left | intros x [<-|[]]; apply dt_leb_refl].
  - destruct (IH (dt_max a b)) as [Hin Hmax].
    destruct (dt_max_cases a b) as (Hab & Ha & Hb).
    split.
    + destruct Hin as [Hin|Hin]; [|right; now right].
      rewrite <- Hin. destruct Hab as [-> | ->]; simpl; auto.
    + intros x [<-|[<-|Hx]].
      * eapply dt_leb_trans; [exact Ha | apply Hmax; now left].
      * eapply dt_leb_trans; [exact Hb | apply Hmax; now left].
      * apply Hmax. now right.
Qed.

Lemma last_month_spec stn sel last_mo :
  last_month stn sel = inr last_mo ->
  In last_mo (map rec_month sel) /\
  forall r, In r sel -> dt_leb (rec_month r) last_mo = true.
Proof.
  destruct sel as [|r [|r2 rs]]; try discriminate.
  unfold last_month. intros [= <-].
  destruct (fold_dt_max_spec (map rec_month (r2 :: rs)) (rec_month r))
    as [Hin Hmax].
  split; [exact Hin|].
  intros x Hx. apply Hmax.
  change (In (rec_month x) (map rec_month (r :: r2 :: rs))).
  now apply in_map.
Qed.

Lemma first_of_month_inv d :
  first_of_month d -> day d = 1 /\ 1 <= month d <= 12.
Proof. intros (y & m & Hm & ->). simpl. auto. Qed.

Lemma first_of_month_bucket rs i :
  first_of_month (idx_month (bucket_row rs i)).
Proof.
  exists (i / 12), (i mod 12 + 1). split; [|reflexivity].
  pose proof (Z.mod_pos_bound i 12). lia.
Qed.

Variable remote : Remote.
Variable df : list record.
Hypothesis Hdates : Forall (fun r => first_of_month (rec_month r)) df.

(** What a station stages comes from a table of [dd_for_site]. *)
Lemma staged_inv stn r :
  In r (staged remote df stn) ->
  exists last_mo rs row,
    last_month stn (loc df stn) = inr last_mo /\
    answers remote stn (add_days 32 last_mo) rs /\
    In row (monthly_table rs) /\
    (MIN_COVERAGE < coverage row)%Q /\
    r = mk_record stn (idx_month row) (m_hdd60 row) (m_hdd65 row).
Proof.
  unfold staged, try_station.
  destruct (last_month stn (loc df stn)) as [e|last_mo]; [intros []|].
  cbn [bind].
  destruct (dd_for_site remote stn (add_days 32 last_mo)) as [e|dfm] eqn:Hdd;
    [intros []|].
  cbn [bind ret]. destruct (dd_for_site_inr _ _ _ _ Hdd) as (rs & Hans & ->).
  unfold to_records, query. rewrite in_map_iff.
  intros (row & <- & Hrow). apply filter_In in Hrow as [Hin Hcov].
  exists last_mo, rs, row. repeat split; auto. now apply Qlt_bool_iff.
Qed.



Hypothesis Hremote : honours_start remote.

(** With a service that honours the start, a staged month lies after every
    month the station already has. *)
Lemma staged_after_existing stn r old :
  In r (staged remote df stn) -> In old (loc df stn) ->
  month_ord (rec_month old) < month_ord (rec_month r).
Proof.
  intros Hr Hold.
  apply staged_inv in Hr
    as (last_mo & rs & row & Hlast & Hans & Hin & _ & ->).
  cbn [rec_month].
  apply last_month_spec in Hlast as [Hlast_in Hlast_max].
  assert (forall x, In x (loc df stn) -> first_of_month (rec_month x))
    as Hloc.
  { intros x Hx. apply filter_In in Hx as [Hx _].
    exact (proj1 (Forall_forall _ _) Hdates x Hx). }
  apply in_map_iff in Hlast_in as (rl & <- & Hrl).
  destruct (first_of_month_inv _ (Hloc rl Hrl)) as [Hday Hmonth].
  destruct (first_of_month_inv _ (Hloc old Hold)) as [_ Hmonth_old].
  pose proof (dt_leb_month_ord _ _ Hmonth_old Hmonth (Hlast_max old Hold))
    as Hold_le.
  destruct Hans as (resp & d & Hreq & _ & Hd & Hrs).
  unfold request in Hreq.
  pose proof (Hremote _ _ _ _ _ Hreq Hd Hrs) as Hafter.
  unfold start_of in Hafter. cbn [start_ts] in Hafter.
  rewrite date_of_month_floor, month_floor_add_32 in Hafter by assumption.
  rewrite monthly_table_rows in Hin.
  apply in_map_iff in Hin as (i & <- & Hi).
  rewrite idx_month_bucket.
  apply in_bin_ords in Hi as (a & _ & Ha & _ & Hai & _).
  apply in_map_iff in Ha as (ra & <- & Hra).
  destruct (proj1 (Forall_forall _ _) Hafter ra Hra) as [Hra_month Hra_leb].
  apply dt_leb_month_ord in Hra_leb; [| |assumption].
  - rewrite month_ord_following in Hra_leb by assumption. lia.
  - unfold following_month.
    destruct (Z.ltb_spec (month (rec_month rl)) 12); simpl; lia.
Qed.



End Uniqueness.

(* ================================================================== *)
(** * A second run over unchanged data                                 *)
(* ================================================================== *)

Section Rerun.

Lemma valid_timestampb_ok d : valid_timestampb d = true -> valid_timestamp d.
Proof.
  unfold valid_timestampb, valid_timestamp.
  rewrite !andb_true_iff, !Z.leb_le, !Z.ltb_lt. tauto.
Qed.





(** A month that passes the coverage test holds a reading. *)
Lemma covered_month_has_reading (rs : list reading) i :
  (MIN_COVERAGE < coverage (bucket_row rs i))%Q ->
  exists b, In b rs /\ month_ord (fst b) = i.
Proof.
  unfold bucket_row. cbn [coverage].
  destruct (in_bin i rs) as [|t l] eqn:E.
  - cbn [List.length Z.of_nat]. intros Hcov. exfalso.
    assert (forall q, (inject_Z 0 / q == 0)%Q) as Hzero
      by (intros q; unfold Qdiv; apply Qmult_0_l).
    rewrite Hzero in Hcov. now compute in Hcov.
  - intros _. unfold in_bin in E.
    destruct (filter (fun r : datetime * Q => month_ord (fst r) =? i) rs)
      as [|b l'] eqn:E'; [discriminate|].
    exists b.
    assert (In b (b :: l')) as Hb by now left.
    rewrite <- E' in Hb. apply filter_In in Hb as [Hb Hi].
    split; [assumption | lia].
Qed.


Variable store : string -> option (list reading).
Hypothesis Hstore : valid_store store.

Lemma archive_remote_honours_start : honours_start (archive_remote store).
Proof.
  intros url p resp d rs Hreq Hd Hrs. unfold archive_remote in Hreq.
  destruct (store url) as [all|] eqn:Hurl;
    injection Hreq as <-; injection Hd as <-; [|discriminate].
  injection Hrs as <-.
  apply Forall_forall. intros r Hr. apply filter_In in Hr as [Hr Hleb].
  split; [|exact Hleb].
  exact (proj1 (proj1 (Forall_forall _ _) (Hstore _ _ Hurl) r Hr)).
Qed.





End Rerun.



(* ================================================================== *)
(** * The properties on sample runs                                    *)
(* ================================================================== *)

Example anchor_after_31_days :
  month_floor (add_days 32 (date 2018 1 1)) = date 2018 2 1.
Proof. reflexivity. Qed.

Example anchor_after_28_days :
  month_floor (add_days 32 (date 2018 2 1)) = date 2018 3 1.
Proof. reflexivity. Qed.

Example anchor_after_29_days :
  month_floor (add_days 32 (date 2020 2 1)) = date 2020 3 1.
Proof. reflexivity. Qed.

Example anchor_after_30_days :
  month_floor (add_days 32 (date 2018 4 1)) = date 2018 5 1.
Proof. reflexivity. Qed.

Example anchor_after_december :
  month_floor (add_days 32 (date 2018 12 1)) = date 2019 1 1.
Proof. reflexivity. Qed.

Example gap_month_row :
  dd_for_site (serve gap_readings) "PAED" (date 2018 1 5) =
  inr [ mk_dd_row (date 2018 1 1)
                  (Num (249984 # 1152)) (Num (428544 # 1152)) (2 # 744);
        mk_dd_row (date 2018 2 1) NaN NaN (0 # 672);
        mk_dd_row (date 2018 3 1)
                  (Num (14880 # 24)) (Num (18600 # 24)) (1 # 744) ].
Proof. reflexivity. Qed.

Example success_without_readings :
  dd_for_site serve_no_readings "PAED" (date 2018 1 5) =
  inl (KeyError "readings").
Proof. reflexivity. Qed.

Example paed_coverages :
  map (fun r => (month (idx_month r), coverage r))
      (monthly_table paed_readings) =
  [ (1, 672 # 744); (2, 504 # 672); (3, 0 # 744); (4, 504 # 720) ].
Proof. vm_compute. reflexivity. Qed.

(** PAFA fails, PAED gets January and February; April, at exactly 0.7, and
    the empty March are left out; PAED sorts before PAFA. *)
Example merge_two_stations :
  map key (df_final archive two_stations) =
  [ ("PAED"%string, date 2017 11 1); ("PAED"%string, date 2017 12 1);
    ("PAED"%string, date 2018 1 1); ("PAED"%string, date 2018 2 1);
    ("PAFA"%string, date 2017 11 1); ("PAFA"%string, date 2017 12 1) ] /\
  snd (main archive two_stations) =
  [ "Processing PAFA: "%string;
    ("<class 'ValueError'>: unknown sensor" ++ nl)%string;
    "Processing PAED: "%string;
    ("2 new months" ++ nl)%string ].
Proof. split; vm_compute; reflexivity. Qed.

(** A station with a single row: [max()] is not callable on its month. *)
Example single_row_station :
  main (serve gap_readings)
       [mk_record "PAED" (date 2017 12 1) (Num 1200) (Num 1355)] =
  ([mk_record "PAED" (date 2017 12 1) (Num 1200) (Num 1355)],
   [ "Processing PAED: "%string;
     ("<class 'TypeError'>: 'Timestamp' object is not callable" ++ nl)%string ]).
Proof. reflexivity. Qed.

Lemma final_is_sorted_concatenation_witness :
  key_le (nth 3 (df_final archive two_stations)
              (mk_record "" (date 0 1 1) NaN NaN))
         (nth 4 (df_final archive two_stations)
              (mk_record "" (date 0 1 1) NaN NaN)).
Proof.
  apply (proj2 (proj2 (proj2
           (final_is_sorted_concatenation archive two_stations)))
           3%nat 4%nat);
    [lia | vm_compute; reflexivity | vm_compute; reflexivity].
Defined.

Lemma failed_station_is_isolated_witness :
  let final := df_final archive two_stations in
  let out := snd (main archive two_stations) in
  main archive two_stations = (final, out) /\
  (exists before after,
     out = before
           ++ ["Processing PAFA: "%string;
               format_exc (ValueError "unknown sensor")]
           ++ after) /\
  (forall Y, In Y (map station two_stations) ->
             In ("Processing " ++ Y ++ ": ")%string out) /\
  loc final "PAFA" = sort_values (loc two_stations "PAFA") /\
  Permutation (loc final "PAFA") (loc two_stations "PAFA") /\
  (forall Y df_new row,
     In Y (map station two_stations) ->
     try_station archive two_stations Y = inr df_new ->
     In row df_new ->
     In (mk_record Y (idx_month row) (m_hdd60 row) (m_hdd65 row)) final).
Proof.
  apply (failed_station_is_isolated
           archive two_stations "PAFA" (ValueError "unknown sensor")).
  - simpl. auto.
  - reflexivity.
Defined.


Lemma archive_store_valid :
  valid_store (fun url => if String.eqb url (BMON_URL "PAED_temp")
                          then Some paed_readings else None).
Proof.
  intros url rs. destruct (String.eqb url (BMON_URL "PAED_temp"));
    [|discriminate].
  intros [= <-]. apply Forall_forall. intros r Hr.
  assert (forallb (fun r : reading => valid_timestampb (fst r))
                  paed_readings = true) as Hall
    by (vm_compute; reflexivity).
  apply valid_timestampb_ok.
  exact (proj1 (forallb_forall _ _) Hall r Hr).
Qed.

Lemma archive_honours_start : honours_start archive.
Proof. apply archive_remote_honours_start, archive_store_valid. Qed.

Lemma two_stations_well_formed : well_formed two_stations.
Proof.
  split.
  - repeat constructor; cbn [rec_month];
      [exists 2017, 11 | exists 2017, 12 | exists 2017, 11 | exists 2017, 12];
      (split; [lia | reflexivity]).
  - repeat constructor; simpl; intuition discriminate.
Qed.


(* ================================================================== *)
(** * Further properties of the merger                                 *)
(* ================================================================== *)

Section MergerFacts.

Variable remote : Remote.
Variable df_exist : list record.

(** What a station prints is a segment of the output of the run. *)
Lemma output_of_station stn :
  In stn (map station df_exist) ->
  exists before after,
    snd (main remote df_exist) =
      before ++ station_output remote df_exist stn ++ after.
Proof.
  intros Hstn. rewrite stdout_eq.
  apply in_unique, in_split in Hstn as (l1 & l2 & ->).
  rewrite flat_map_app. cbn [flat_map].
  now exists (flat_map (station_output remote df_exist) l1),
             (flat_map (station_output remote df_exist) l2).
Qed.

Lemma loc_station stn r : In r (loc df_exist stn) -> station r = stn.
Proof.
  intros Hr. apply filter_In in Hr as [_ Hs]. now apply String.eqb_eq.
Qed.

Lemma loc_nonempty_station stn r :
  In r (loc df_exist stn) -> In stn (map station df_exist).
Proof.
  intros Hr. rewrite <- (loc_station stn r Hr).
  apply filter_In in Hr as [Hr _]. now apply in_map.
Qed.

Lemma last_month_station stn last_mo :
  last_month stn (loc df_exist stn) = inr last_mo ->
  In stn (map station df_exist).
Proof.
  destruct (loc df_exist stn) as [|r l] eqn:E; [discriminate|].
  intros _. apply (loc_nonempty_station stn r). rewrite E. now left.
Qed.

Lemma length_loc_df_final stn :
  In stn (map station df_exist) ->
  List.length (loc (df_final remote df_exist) stn) =
    (List.length (loc df_exist stn)
     + List.length (staged remote df_exist stn))%nat.
Proof.
  intros Hstn. rewrite loc_df_final.
  destruct (in_dec string_dec stn (map station df_exist)); [|contradiction].
  now rewrite (Permutation_length (sort_values_perm _)), length_app.
Qed.

End MergerFacts.

(** X1.  When the service answers a station's request with status success
    and no reading at all, [dd_for_site] returns an empty table; the run
    prints an empty line for the station, stages nothing for it and keeps
    its rows. *)
Theorem no_readings_nothing_staged
  (remote : Remote) (df_exist : list record) (stn : string)
  (last_mo : datetime) :
  last_month stn (loc df_exist stn) = inr last_mo ->
  answers remote stn (add_days 32 last_mo) [] ->
  dd_for_site remote stn (add_days 32 last_mo) = inr [] /\
  staged remote df_exist stn = [] /\
  (exists before after,
     snd (main remote df_exist) =
       before ++ [("Processing " ++ stn ++ ": ")%string; nl] ++ after) /\
  loc (df_final remote df_exist) stn = sort_values (loc df_exist stn).
Proof.
  intros Hlast Hans.
  pose proof (dd_for_site_answers _ _ _ _ Hans) as Hdd.
  change (monthly_table []) with (@nil dd_row) in Hdd.
  assert (try_station remote df_exist stn = inr []) as Htry.
  { unfold try_station. rewrite Hlast. cbn [bind]. now rewrite Hdd. }
  pose proof (last_month_station _ _ _ Hlast) as Hstn.
  assert (staged remote df_exist stn = []) as Hst
    by (unfold staged; now rewrite Htry).
  split; [exact Hdd | split; [exact Hst | split]].
  - destruct (output_of_station remote df_exist stn Hstn)
      as (before & after & Hout).
    exists before, after. rewrite Hout.
    unfold station_output. now rewrite Htry.
  - rewrite loc_df_final, Hst.
    destruct (in_dec string_dec stn (map station df_exist));
      now rewrite app_nil_r.
Qed.

Lemma no_readings_nothing_staged_witness :
  dd_for_site (serve []) "PAED" (add_days 32 (date 2017 12 1)) = inr [] /\
  staged (serve []) two_stations "PAED" = [] /\
  (exists before after,
     snd (main (serve []) two_stations) =
       before ++ ["Processing PAED: "%string; nl] ++ after) /\
  loc (df_final (serve []) two_stations) "PAED"
    = sort_values (loc two_stations "PAED").
Proof.
  apply (no_readings_nothing_staged
           (serve []) two_stations "PAED" (date 2017 12 1)).
  - reflexivity.
  - apply serve_answers.
Defined.



(** X3.  The start date counts only through its year and month: two start
    dates of the same month give the same request and the same outcome. *)
Theorem start_date_counts_by_month
  (remote : Remote) (stn : string) (d1 d2 : datetime) :
  year d1 = year d2 -> month d1 = month d2 ->
  request remote stn d1 = request remote stn d2 /\
  dd_for_site remote stn d1 = dd_for_site remote stn d2.
Proof.
  intros Hy Hm.
  assert (request remote stn d1 = request remote stn d2) as Hreq.
  { unfold request, month_floor.
    cbn [year month day]. now rewrite Hy, Hm. }
  split; [exact Hreq|]. unfold dd_for_site. now rewrite Hreq.
Qed.

Lemma start_date_counts_by_month_witness :
  request archive "PAED" (date 2018 2 1)
    = request archive "PAED" (mk_datetime 2018 2 28 23 59 59 0) /\
  dd_for_site archive "PAED" (date 2018 2 1)
    = dd_for_site archive "PAED" (mk_datetime 2018 2 28 23 59 59 0).
Proof.
  apply (start_date_counts_by_month archive "PAED"); reflexivity.
Defined.

(** X4.  A station that has exactly one row in the table is never
    extended, whatever the service returns: taking the last month raises
    the [TypeError], the run prints it, and the station keeps its one
    row. *)
Theorem single_row_station_is_skipped
  (remote : Remote) (df_exist : list record) (r : record) :
  loc df_exist (station r) = [r] ->
  staged remote df_exist (station r) = [] /\
  loc (df_final remote df_exist) (station r) = [r] /\
  exists before after,
    snd (main remote df_exist) =
      before
      ++ [("Processing " ++ station r ++ ": ")%string;
          format_exc (TypeError "'Timestamp' object is not callable")]
      ++ after.
Proof.
  intros Hloc.
  assert (try_station remote df_exist (station r) =
          inl (TypeError "'Timestamp' object is not callable")) as Htry
    by (unfold try_station; now rewrite Hloc).
  assert (In (station r) (map station df_exist)) as Hstn.
  { apply (loc_nonempty_station df_exist (station r) r).
    rewrite Hloc. now left. }
  assert (staged remote df_exist (station r) = []) as Hst
    by (unfold staged; now rewrite Htry).
  split; [exact Hst | split].
  - rewrite loc_df_final, Hst, Hloc.
    now destruct (in_dec string_dec (station r) (map station df_exist)).
  - destruct (output_of_station remote df_exist _ Hstn)
      as (before & after & Hout).
    exists before, after. rewrite Hout.
    unfold station_output. now rewrite Htry.
Qed.

Lemma single_row_station_is_skipped_witness :
  staged archive lone_paed "PAED" = [] /\
  loc (df_final archive lone_paed) "PAED"
    = [mk_record "PAED" (date 2017 12 1) (Num (1200 # 1)) (Num (1355 # 1))] /\
  exists before after,
    snd (main archive lone_paed) =
      before
      ++ ["Processing PAED: "%string;
          format_exc (TypeError "'Timestamp' object is not callable")]
      ++ after.
Proof.
  apply (single_row_station_is_skipped
           archive lone_paed
           (mk_record "PAED" (date 2017 12 1)
                      (Num (1200 # 1)) (Num (1355 # 1)))).
  reflexivity.
Defined.

(** X5.  A run only appends: every row of the table is still in the
    result, the result has no fewer rows, and it has exactly the stations
    the table had. *)
Theorem run_only_appends (remote : Remote) (df_exist : list record) :
  let final := df_final remote df_exist in
  (forall r, In r df_exist -> In r final) /\
  List.length final =
    (List.length df_exist
     + List.length (all_staged remote df_exist))%nat /\
  (forall stn, In stn (map station final) <->
               In stn (map station df_exist)).
Proof.
  cbn zeta. pose proof (df_final_perm remote df_exist) as Hperm.
  split; [|split].
  - intros r Hr. apply (Permutation_in _ (Permutation_sym Hperm)).
    apply in_or_app. now left.
  - now rewrite (Permutation_length Hperm), length_app.
  - intros stn. rewrite !in_map_iff. split.
    + intros (r & <- & Hr). apply (Permutation_in _ Hperm) in Hr.
      apply in_app_or in Hr as [Hr|Hr].
      * now exists r.
      * apply in_all_staged in Hr as [Hr _].
        now apply in_map_iff in Hr.
    + intros (r & <- & Hr). exists r. split; [reflexivity|].
      apply (Permutation_in _ (Permutation_sym Hperm)).
      apply in_or_app. now left.
Qed.

Lemma run_only_appends_witness :
  In (mk_record "PAFA" (date 2017 11 1) (Num (1900 # 1)) (Num (2050 # 1)))
     (df_final archive two_stations).
Proof.
  apply (proj1 (run_only_appends archive two_stations)).
  left. reflexivity.
Defined.

(** X6.  For a station whose [try] body ends with [n > 0] accepted months,
    the run prints the station's name followed by [n new months], and the
    station has exactly [n] rows more in the result. *)
Theorem accepted_months_are_counted
  (remote : Remote) (df_exist : list record) (stn : string)
  (df_new : list dd_row) :
  In stn (map station df_exist) ->
  try_station remote df_exist stn = inr df_new ->
  df_new <> [] ->
  let n := List.length df_new in
  (exists before after,
     snd (main remote df_exist) =
       before
       ++ [("Processing " ++ stn ++ ": ")%string;
           (string_of_nat n ++ " new months" ++ nl)%string]
       ++ after) /\
  List.length (loc (df_final remote df_exist) stn) =
    (List.length (loc df_exist stn) + n)%nat.
Proof.
  intros Hstn Htry Hne n. split.
  - destruct (output_of_station remote df_exist stn Hstn)
      as (before & after & Hout).
    exists before, after. rewrite Hout.
    unfold station_output. rewrite Htry.
    destruct (Nat.ltb_spec 0 (List.length df_new)) as [_|Hlen];
      [reflexivity|].
    destruct df_new; [congruence | simpl in Hlen; lia].
  - rewrite length_loc_df_final by assumption.
    unfold staged, to_records. now rewrite Htry, length_map.
Qed.

Lemma accepted_months_are_counted_witness :
  (exists before after,
     snd (main archive two_stations) =
       before
       ++ ["Processing PAED: "%string;
           (string_of_nat 2 ++ " new months" ++ nl)%string]
       ++ after) /\
  List.length (loc (df_final archive two_stations) "PAED") =
    (List.length (loc two_stations "PAED") + 2)%nat.
Proof.
  apply (accepted_months_are_counted
           archive two_stations "PAED"
           (query (monthly_table paed_readings))).
  - simpl. auto.
  - vm_compute. reflexivity.
  - vm_compute. discriminate.
Defined.

(** X7.  When every request fails with an exception, a run changes no row:
    the result is the table sorted by station and month, and a table that
    was already in that order is persisted as it is. *)
Theorem unreachable_service_only_sorts
  (remote : Remote) (df_exist : list record) :
  (forall url p, exists e, remote url p = inl e) ->
  all_staged remote df_exist = [] /\
  df_final remote df_exist = sort_values df_exist /\
  (StronglySorted key_le df_exist -> df_final remote df_exist = df_exist).
Proof.
  intros Hdown.
  assert (forall stn, staged remote df_exist stn = []) as Hnone.
  { intros stn. unfold staged, try_station.
    destruct (last_month stn (loc df_exist stn)) as [e|last_mo];
      [reflexivity|].
    cbn [bind]. unfold dd_for_site, request.
    destruct (Hdown (BMON_URL (stn ++ "_temp"))
                (mk_params
                   (year (month_floor (add_days 32 last_mo)),
                    month (month_floor (add_days 32 last_mo)),
                    day (month_floor (add_days 32 last_mo))) "1H"))
      as [e He].
    now rewrite He. }
  assert (all_staged remote df_exist = []) as Hall.
  { unfold all_staged.
    induction (unique (map station df_exist)) as [|stn stns IH];
      [reflexivity|].
    cbn [flat_map]. now rewrite Hnone, IH. }
  split; [exact Hall|].
  rewrite df_final_eq, Hall, app_nil_r.
  split; [reflexivity | apply sort_values_sorted_id].
Qed.

Lemma unreachable_service_only_sorts_witness :
  all_staged offline two_stations = [] /\
  df_final offline two_stations = sort_values two_stations /\
  (StronglySorted key_le two_stations ->
   df_final offline two_stations = two_stations).
Proof.
  apply (unreachable_service_only_sorts offline two_stations).
  intros url p. eexists. reflexivity.
Defined.

Section StagedValues.

Local Open Scope Q_scope.

(** The values of a month that passes the coverage test are numbers. *)
Lemma covered_row_ordered (rs : list reading) (i : Z) :
  MIN_COVERAGE < coverage (bucket_row rs i) ->
  exists a b,
    m_hdd60 (bucket_row rs i) = Num a /\
    m_hdd65 (bucket_row rs i) = Num b /\ 0 <= a /\ a <= b.
Proof.
  intros Hcov.
  assert (in_bin i rs <> []) as Hne.
  { destruct (covered_month_has_reading rs i Hcov) as (b & Hb & Hbi).
    unfold in_bin. intros Hnil. apply map_eq_nil in Hnil.
    assert (In b (filter (fun r : datetime * Q => (month_ord (fst r) =? i)%Z)
                         rs)) as Hin
      by (apply filter_In; split; [assumption | now apply Z.eqb_eq]).
    rewrite Hnil in Hin. exact Hin. }
  unfold bucket_row. cbn [m_hdd60 m_hdd65].
  rewrite !mean_map_Num by assumption. cbn [vmul].
  eexists _, _. split; [reflexivity|]. split; [reflexivity|].
  pose proof (total_hours_pos (i / 12) (i mod 12 + 1)) as Hpos.
  split.
  - apply Qmult_le_0_compat; [|now apply Qlt_le_weak].
    apply Qmean_nonneg; [assumption | intros; apply hdd_hour_ordered].
  - apply Qmult_le_compat_r; [|now apply Qlt_le_weak].
    apply Qmean_le; [assumption | intros; apply hdd_hour_ordered].
Qed.

End StagedValues.

(** X8.  No [NaN] reaches the persisted table through a run: every staged
    row carries its station, a first-of-month date and numbers with
    [0 <= hdd60 <= hdd65]; so a table whose rows all have such numbers
    keeps that property. *)
Theorem staged_rows_are_ordered_numbers
  (remote : Remote) (df_exist : list record) :
  (forall r, In r (all_staged remote df_exist) ->
             In (station r) (map station df_exist) /\
             first_of_month (rec_month r) /\
             record_ordered r) /\
  (Forall record_ordered df_exist ->
   Forall record_ordered (df_final remote df_exist)).
Proof.
  assert (forall r, In r (all_staged remote df_exist) ->
                    In (station r) (map station df_exist) /\
                    first_of_month (rec_month r) /\
                    record_ordered r) as Hstaged.
  { intros r Hr. apply in_all_staged in Hr as [Hstn Hr].
    split; [exact Hstn|].
    apply staged_inv in Hr
      as (last_mo & rs & row & _ & _ & Hin & Hcov & ->).
    rewrite monthly_table_rows in Hin.
    apply in_map_iff in Hin as (i & <- & _).
    split; [apply first_of_month_bucket|].
    exact (covered_row_ordered rs i Hcov). }
  split; [exact Hstaged|].
  intros Hold.
  eapply Permutation_Forall; [apply Permutation_sym, df_final_perm|].
  apply Forall_app. split; [exact Hold|].
  apply Forall_forall. intros r Hr. now apply Hstaged.
Qed.

Lemma staged_rows_are_ordered_numbers_witness :
  Forall record_ordered (df_final archive two_stations).
Proof.
  apply (proj2 (staged_rows_are_ordered_numbers archive two_stations)).
  repeat constructor;
    (eexists _, _; split; [reflexivity|]; split; [reflexivity|];
     split; discriminate).
Defined.

(* ================================================================== *)
(** * Further properties of the calendar step                          *)
(* ================================================================== *)

Section Anchor.

Lemma month_ord_next_month_start d :
  1 <= month d <= 12 ->
  month_ord (next_month_start d) = month_ord d + 1 /\
  1 <= month (next_month_start d) <= 12 /\
  day (next_month_start d) = 1.
Proof.
  intros Hm. unfold next_month_start, month_ord.
  destruct (Z.ltb_spec (month d) 12); cbn [year month day]; lia.
Qed.

(** The days left in the month, and one more, lead to the first day of the
    next month. *)
Lemma add_days_to_next_month d :
  1 <= day d <= days_in_month (year d) (month d) ->
  add_days (Z.to_nat (days_in_month (year d) (month d) - day d + 1)) d
  = next_month_start d.
Proof.
  intros Hd.
  replace (Z.to_nat (days_in_month (year d) (month d) - day d + 1))
    with (S (Z.to_nat (days_in_month (year d) (month d) - day d))) by lia.
  rewrite add_days_S, add_days_within by lia.
  rewrite next_day_last; cbn [set_day year month day]; [reflexivity | lia].
Qed.

Lemma add_days_full_month d :
  day d = 1 ->
  add_days (Z.to_nat (days_in_month (year d) (month d))) d
  = next_month_start d.
Proof. intros H1. now rewrite add_days_month_length. Qed.

(** Two months in a row have at least 59 days. *)
Lemma two_months_59_days d :
  1 <= month d <= 12 ->
  59 <= days_in_month (year d) (month d)
        + days_in_month (year (next_month_start d))
                        (month (next_month_start d)).
Proof.
  intros Hm. unfold next_month_start.
  destruct (Z.ltb_spec (month d) 12) as [Hlt|Hge]; cbn [year month].
  - assert (month d = 1 \/ month d = 2 \/ 3 <= month d <= 11) as Hcase
      by lia.
    destruct Hcase as [H1|[H2|H3]].
    + rewrite H1. change (days_in_month (year d) 1) with 31.
      pose proof (days_in_month_bounds (year d) (1 + 1)). lia.
    + rewrite H2. change (days_in_month (year d) (2 + 1)) with 31.
      pose proof (days_in_month_bounds (year d) 2). lia.
    + assert (30 <= days_in_month (year d) (month d)) as Ha.
      { unfold days_in_month.
        destruct (Z.eqb_spec (month d) 2); [lia|].
        destruct ((month d =? 4) || (month d =? 6) || (month d =? 9)
                  || (month d =? 11)); lia. }
      assert (30 <= days_in_month (year d) (month d + 1)) as Hb.
      { unfold days_in_month.
        destruct (Z.eqb_spec (month d + 1) 2); [lia|].
        destruct ((month d + 1 =? 4) || (month d + 1 =? 6)
                  || (month d + 1 =? 9) || (month d + 1 =? 11)); lia. }
      lia.
  - assert (month d = 12) as -> by lia.
    change (days_in_month (year d) 12) with 31.
    change (days_in_month (year d + 1) 1) with 31. lia.
Qed.

End Anchor.

(** X9.  From any valid date, the anchor [date + 32 days] lies in the next
    month or in the one after it, never in the month of the date and never
    later; from a day up to the 27th it lies in the next month; the time
    of day is kept. *)
Theorem anchor_from_any_day (d : datetime) :
  valid_timestamp d ->
  let a := add_days 32 d in
  (month_ord a = month_ord d + 1 \/ month_ord a = month_ord d + 2) /\
  (day d <= 27 -> month_ord a = month_ord d + 1) /\
  (hour a, minute a, second a, microsecond a)
    = (hour d, minute d, second d, microsecond d).
Proof.
  intros (Hm & Hd & _) a.
  pose proof (days_in_month_bounds (year d) (month d)) as Hdim.
  set (n1 := next_month_start d).
  destruct (month_ord_next_month_start d Hm) as (Hord1 & Hm1 & Hday1).
  fold n1 in Hord1, Hm1, Hday1.
  pose proof (days_in_month_bounds (year n1) (month n1)) as Hdim1.
  pose proof (two_months_59_days d Hm) as H59. fold n1 in H59.
  (* the days that remain once the next month is reached *)
  set (k := Z.to_nat (days_in_month (year d) (month d) - day d + 1)).
  assert (a = add_days (32 - k) n1) as Ha.
  { subst a n1. rewrite <- (add_days_to_next_month d Hd). fold k.
    rewrite <- add_days_plus. f_equal. subst k. lia. }
  assert (hour n1 = hour d /\ minute n1 = minute d /\
          second n1 = second d /\ microsecond n1 = microsecond d) as Ht1.
  { subst n1. unfold next_month_start.
    destruct (month d <? 12); cbn; auto. }
  destruct (Z_le_gt_dec (1 + Z.of_nat (32 - k))
                        (days_in_month (year n1) (month n1)))
    as [Hfit|Hover].
  - (* the anchor is still in the next month *)
    rewrite add_days_within in Ha by (rewrite Hday1; exact Hfit).
    rewrite Ha. unfold month_ord in *. cbn [set_day year month hour minute
                                            second microsecond].
    destruct Ht1 as (-> & -> & -> & ->).
    split; [left; lia | split; [intros _; lia | reflexivity]].
  - (* the anchor passes the end of the next month *)
    set (n2 := next_month_start n1).
    destruct (month_ord_next_month_start n1 Hm1) as (Hord2 & Hm2 & Hday2).
    fold n2 in Hord2, Hm2, Hday2.
    pose proof (days_in_month_bounds (year n2) (month n2)) as Hdim2.
    set (len1 := Z.to_nat (days_in_month (year n1) (month n1))).
    assert (a = add_days (32 - k - len1) n2) as Ha2.
    { rewrite Ha. subst n2. rewrite <- (add_days_full_month n1 Hday1).
      fold len1. rewrite <- add_days_plus. f_equal. subst k len1. lia. }
    rewrite add_days_within in Ha2 by (subst k len1; lia).
    assert (hour n2 = hour n1 /\ minute n2 = minute n1 /\
            second n2 = second n1 /\ microsecond n2 = microsecond n1)
      as Ht2.
    { subst n2. unfold next_month_start.
      destruct (month n1 <? 12); cbn; auto. }
    rewrite Ha2. unfold month_ord in *.
    cbn [set_day year month hour minute second microsecond].
    destruct Ht2 as (-> & -> & -> & ->).
    destruct Ht1 as (-> & -> & -> & ->).
    split; [right; lia | split; [|reflexivity]].
    intros H27. exfalso. subst k. lia.
Qed.

Lemma anchor_from_any_day_witness :
  let a := add_days 32 (mk_datetime 2018 1 31 7 15 0 0) in
  (month_ord a = 2018 * 12 + 1 \/ month_ord a = 2018 * 12 + 2) /\
  (31 <= 27 -> month_ord a = 2018 * 12 + 1) /\
  (hour a, minute a, second a, microsecond a) = (7, 15, 0, 0).
Proof.
  apply (anchor_from_any_day (mk_datetime 2018 1 31 7 15 0 0)).
  apply valid_timestampb_ok. reflexivity.
Defined.

(** From the 31st of January the anchor falls in March: February is
    passed over. *)
Example anchor_skips_february :
  month_floor (add_days 32 (date 2018 1 31)) = date 2018 3 1.
Proof. reflexivity. Qed.

(* ================================================================== *)
(** * Further properties of the aggregator                             *)
(* ================================================================== *)

Section TableFacts.

Lemma months_from_nth n : forall lo k i,
  nth_error (months_from lo n) k = Some i -> i = lo + Z.of_nat k.
Proof.
  induction n as [|n IH]; intros lo k i; [destruct k; discriminate|].
  destruct k as [|k]; simpl.
  - intros [= <-]. lia.
  - intros Hk. apply IH in Hk. lia.
Qed.

Lemma bin_ords_nth index k i j :
  nth_error (bin_ords index) k = Some i ->
  nth_error (bin_ords index) (S k) = Some j ->
  j = i + 1.
Proof.
  destruct index as [|d ds]; [destruct k; discriminate|].
  unfold bin_ords. intros Hi Hj.
  apply months_from_nth in Hi, Hj. lia.
Qed.

(** The first day of the month after month [i] is the label of month
    [i + 1]. *)
Lemma following_month_bucket rs i :
  following_month (idx_month (bucket_row rs i))
  = idx_month (bucket_row rs (i + 1)).
Proof.
  unfold bucket_row, following_month. cbn [idx_month date year month].
  pose proof (Z.mod_pos_bound i 12 ltac:(lia)) as Hmod.
  pose proof (Z.div_mod i 12 ltac:(lia)) as Hdiv.
  destruct (Z.ltb_spec (i mod 12 + 1) 12) as [Hlt|Hge].
  - assert ((i + 1) / 12 = i / 12) as ->
      by (symmetry; apply (Z.div_unique _ 12 _ (i mod 12 + 1)); lia).
    assert ((i + 1) mod 12 = i mod 12 + 1) as ->
      by (symmetry; apply (Z.mod_unique _ 12 (i / 12)); lia).
    reflexivity.
  - assert ((i + 1) / 12 = i / 12 + 1) as ->
      by (symmetry; apply (Z.div_unique _ 12 _ 0); lia).
    assert ((i + 1) mod 12 = 0) as ->
      by (symmetry; apply (Z.mod_unique _ 12 (i / 12 + 1)); lia).
    reflexivity.
Qed.

Lemma StronglySorted_months_from n : forall lo,
  StronglySorted Z.lt (months_from lo n).
Proof.
  induction n as [|n IH]; intros lo; simpl; constructor; [apply IH|].
  apply Forall_forall. intros x Hx. apply in_months_from in Hx. lia.
Qed.

Lemma StronglySorted_map {A B} (R : B -> B -> Prop) (f : A -> B) l :
  StronglySorted (fun a b => R (f a) (f b)) l ->
  StronglySorted R (map f l).
Proof.
  induction 1 as [|x l Hl IH Hx]; simpl; constructor; [assumption|].
  apply Forall_forall. intros y Hy.
  apply in_map_iff in Hy as (z & <- & Hz).
  exact (proj1 (Forall_forall _ _) Hx z Hz).
Qed.

End TableFacts.

(** X10.  The rows of the table [dd_for_site] computes come in
    chronological order without a hole: each entry of the index is the
    first day of the month that follows the entry before it. *)
Theorem index_is_consecutive (rs : list reading) :
  let index := map idx_month (monthly_table rs) in
  StronglySorted (fun a b => month_ord a < month_ord b) index /\
  forall k a b,
    nth_error index k = Some a -> nth_error index (S k) = Some b ->
    b = following_month a.
Proof.
  cbn zeta. rewrite monthly_table_rows, map_map. split.
  - apply (StronglySorted_map
             (fun a b => month_ord a < month_ord b)
             (fun i => idx_month (bucket_row rs i))).
    destruct (map fst rs) as [|d ds]; [constructor|].
    unfold bin_ords.
    eapply StronglySorted_ind with (P := fun l =>
      StronglySorted (fun a b =>
        month_ord (idx_month (bucket_row rs a)) <
        month_ord (idx_month (bucket_row rs b))) l);
      [constructor | | apply StronglySorted_months_from].
    intros a l _ IH Ha. constructor; [exact IH|].
    eapply Forall_impl; [|exact Ha].
    intros b Hab. now rewrite !idx_month_bucket.
  - intros k a b Ha Hb.
    rewrite nth_error_map in Ha, Hb.
    destruct (nth_error (bin_ords (map fst rs)) k) as [i|] eqn:Ei;
      [|discriminate].
    destruct (nth_error (bin_ords (map fst rs)) (S k)) as [j|] eqn:Ej;
      [|discriminate].
    cbn [option_map] in Ha, Hb.
    injection Ha as <-. injection Hb as <-.
    rewrite (bin_ords_nth _ _ _ _ Ei Ej).
    symmetry. apply (following_month_bucket rs).
Qed.

Lemma index_is_consecutive_witness :
  date 2018 2 1 = following_month (date 2018 1 1).
Proof.
  apply (proj2 (index_is_consecutive gap_readings) 0%nat); reflexivity.
Defined.

Section CoverageBounds.

Lemma NoDup_map_filter {A B} (f : A -> B) (p : A -> bool) l :
  NoDup (map f l) -> NoDup (map f (filter p l)).
Proof.
  induction l as [|x l IH]; simpl; [auto|].
  intros Hnd. apply NoDup_cons_iff in Hnd as [Hx Hl].
  destruct (p x); simpl; [|auto].
  constructor; [|auto].
  rewrite in_map_iff. intros (y & Hy & Hin).
  apply filter_In in Hin as [Hin _].
  apply Hx. rewrite <- Hy. now apply in_map.
Qed.

Lemma NoDup_map_finer {A B C} (f : A -> B) (g : A -> C) l :
  (forall x y, In x l -> In y l -> g x = g y -> f x = f y) ->
  NoDup (map f l) -> NoDup (map g l).
Proof.
  induction l as [|x l IH]; simpl; intros Hfg Hnd; [constructor|].
  apply NoDup_cons_iff in Hnd as [Hx Hl].
  constructor.
  - rewrite in_map_iff. intros (y & Hy & Hin).
    apply Hx. rewrite <- (Hfg y x); auto. now apply in_map.
  - apply IH; auto.
Qed.

Lemma length_months_from n : forall lo, List.length (months_from lo n) = n.
Proof. induction n; intros lo; simpl; auto. Qed.

(** Distinct integers of [0 .. N-1] are at most [N]. *)
Lemma bounded_NoDup_length (l : list Z) N :
  0 <= N -> NoDup l -> (forall x, In x l -> 0 <= x < N) ->
  Z.of_nat (List.length l) <= N.
Proof.
  intros HN Hnd Hb.
  assert (incl l (months_from 0 (Z.to_nat N))) as Hincl.
  { intros x Hx. apply in_months_from. specialize (Hb x Hx). lia. }
  pose proof (NoDup_incl_length Hnd Hincl) as Hlen.
  rewrite length_months_from in Hlen. lia.
Qed.

(** With one reading per hour at most, a month cannot hold more readings
    than it has hours. *)
Lemma bucket_count_bound (rs : list reading) i :
  Forall (fun r => valid_timestamp (fst r)) rs ->
  one_reading_per_hour rs ->
  Z.of_nat (List.length (in_bin i rs))
  <= days_in_month (i / 12) (i mod 12 + 1) * 24.
Proof.
  intros Hvalid Hhours. unfold in_bin. rewrite length_map.
  match goal with
  | |- Z.of_nat (List.length ?x) <= _ => set (l := x)
  end.
  set (slot := fun r : datetime * Q =>
                 (day (fst r) - 1) * 24 + hour (fst r)).
  pose proof (days_in_month_bounds (i / 12) (i mod 12 + 1)) as HD.
  assert (forall r, In r l ->
            year (fst r) = i / 12 /\ month (fst r) = i mod 12 + 1 /\
            1 <= day (fst r) <= days_in_month (i / 12) (i mod 12 + 1) /\
            0 <= hour (fst r) < 24) as Hin.
  { intros r Hr. apply filter_In in Hr as [Hr Hi]. apply Z.eqb_eq in Hi.
    destruct (proj1 (Forall_forall _ _) Hvalid r Hr)
      as (Hm & Hd & Hh & _).
    unfold month_ord in Hi.
    pose proof (ord_div (year (fst r)) (month (fst r)) Hm) as Hy.
    pose proof (ord_mod (year (fst r)) (month (fst r)) Hm) as Hmo.
    rewrite Hi in Hy, Hmo. rewrite Hy, Hmo. repeat split; lia. }
  rewrite <- (length_map slot l).
  apply bounded_NoDup_length; [lia | |].
  - apply (NoDup_map_finer (fun r => hour_slot (fst r)) slot).
    + intros x y Hx Hy Hxy.
      destruct (Hin x Hx) as (Hx1 & Hx2 & Hx3 & Hx4).
      destruct (Hin y Hy) as (Hy1 & Hy2 & Hy3 & Hy4).
      unfold hour_slot. subst slot. cbn beta in Hxy.
      rewrite Hx1, Hx2, Hy1, Hy2.
      assert (day (fst x) = day (fst y)) as -> by lia.
      assert (hour (fst x) = hour (fst y)) as -> by lia.
      reflexivity.
    + subst l. now apply NoDup_map_filter.
  - intros z Hz. apply in_map_iff in Hz as (r & <- & Hr).
    destruct (Hin r Hr) as (_ & _ & Hd & Hh). subst slot. cbn beta. lia.
Qed.

End CoverageBounds.

(** X11.  A coverage is never negative; and when the readings have valid
    timestamps and no two of them fall in the same hour, no coverage
    exceeds 1. *)
Theorem coverage_is_a_fraction (rs : list reading) :
  (forall row, In row (monthly_table rs) -> (0 <= coverage row)%Q) /\
  (Forall (fun r => valid_timestamp (fst r)) rs ->
   one_reading_per_hour rs ->
   forall row, In row (monthly_table rs) -> (coverage row <= 1)%Q).
Proof.
  split.
  - intros row Hrow. rewrite monthly_table_rows in Hrow.
    apply in_map_iff in Hrow as (i & <- & _).
    unfold bucket_row. cbn [coverage].
    apply Qle_shift_div_l; [apply total_hours_pos|].
    rewrite Qmult_0_l. change 0%Q with (inject_Z 0).
    rewrite <- Zle_Qle. lia.
  - intros Hvalid Hhours row Hrow. rewrite monthly_table_rows in Hrow.
    apply in_map_iff in Hrow as (i & <- & _).
    unfold bucket_row. cbn [coverage].
    apply Qle_shift_div_r; [apply total_hours_pos|].
    rewrite Qmult_1_l, <- Zle_Qle.
    now apply bucket_count_bound.
Qed.

Lemma coverage_is_a_fraction_witness :
  (coverage (bucket_row gap_readings (2018 * 12 + 0)) <= 1)%Q.
Proof.
  apply (proj2 (coverage_is_a_fraction gap_readings));
    [| | left; reflexivity].
  - unfold gap_readings. repeat constructor; cbn [fst];
      apply valid_timestampb_ok; reflexivity.
  - unfold one_reading_per_hour, gap_readings. cbn [map fst hour_slot].
    repeat constructor; simpl; intuition discriminate.
Defined.

Section BaseDifference.

Local Open Scope Q_scope.




End BaseDifference.



Section Partition.





End Partition.


Section ReadingOrder.

Lemma fold_min_perm a l b l' :
  Permutation (a :: l) (b :: l') ->
  fold_right Z.min a l = fold_right Z.min b l'.
Proof.
  intros Hperm.
  destruct (fold_min_spec a l) as [Hin Hle].
  destruct (fold_min_spec b l') as [Hin' Hle'].
  apply (Permutation_in _ Hperm) in Hin.
  apply (Permutation_in _ (Permutation_sym Hperm)) in Hin'.
  specialize (Hle _ Hin'). specialize (Hle' _ Hin). lia.
Qed.

Lemma fold_max_perm a l b l' :
  Permutation (a :: l) (b :: l') ->
  fold_right Z.max a l = fold_right Z.max b l'.
Proof.
  intros Hperm.
  destruct (fold_max_spec a l) as [Hin Hle].
  destruct (fold_max_spec b l') as [Hin' Hle'].
  apply (Permutation_in _ Hperm) in Hin.
  apply (Permutation_in _ (Permutation_sym Hperm)) in Hin'.
  specialize (Hle _ Hin'). specialize (Hle' _ Hin). lia.
Qed.

(** The buckets depend on the timestamps, not on their order. *)
Lemma bin_ords_perm index index' :
  Permutation index index' -> bin_ords index = bin_ords index'.
Proof.
  intros Hperm.
  destruct index as [|d ds]; destruct index' as [|d' ds'].
  - reflexivity.
  - apply Permutation_nil in Hperm. discriminate.
  - apply Permutation_sym, Permutation_nil in Hperm. discriminate.
  - unfold bin_ords.
    apply (Permutation_map month_ord) in Hperm. cbn [map] in Hperm.
    now rewrite (fold_min_perm _ _ _ _ Hperm), (fold_max_perm _ _ _ _ Hperm).
Qed.

Lemma filter_perm {A} (p : A -> bool) l l' :
  Permutation l l' -> Permutation (filter p l) (filter p l').
Proof.
  induction 1 as [|x l l' _ IH|x y l|l1 l2 l3 _ IH1 _ IH2]; simpl.
  - constructor.
  - destruct (p x); [now constructor | assumption].
  - destruct (p x), (p y); try reflexivity. apply perm_swap.
  - now transitivity (filter p l2).
Qed.

Lemma in_bin_length_perm (rs rs' : list reading) i :
  Permutation rs rs' ->
  List.length (in_bin i rs) = List.length (in_bin i rs').
Proof.
  intros Hperm. unfold in_bin. rewrite !length_map.
  now apply Permutation_length, filter_perm.
Qed.

(** Rows that agree on a key are kept or dropped alike by a test on the
    key. *)
Lemma filter_by_key {A B} (g : A -> B) (p : B -> bool) l : forall l',
  map g l = map g l' ->
  map g (filter (fun x => p (g x)) l) = map g (filter (fun x => p (g x)) l').
Proof.
  induction l as [|x l IH]; intros [|y l']; simpl; try discriminate;
    [reflexivity|].
  intros [= Hxy Hl]. rewrite Hxy.
  destruct (p (g y)); simpl; [rewrite Hxy; f_equal|]; now apply IH.
Qed.

End ReadingOrder.

(** X14.  The order in which the service lists the readings does not
    matter for the months of the table, their coverage, and the months that
    pass the coverage test. *)
Theorem reading_order_is_irrelevant (rs rs' : list reading) :
  Permutation rs rs' ->
  map (fun row => (idx_month row, coverage row)) (monthly_table rs)
  = map (fun row => (idx_month row, coverage row)) (monthly_table rs') /\
  map idx_month (query (monthly_table rs))
  = map idx_month (query (monthly_table rs')).
Proof.
  intros Hperm.
  assert (map (fun row => (idx_month row, coverage row)) (monthly_table rs)
          = map (fun row => (idx_month row, coverage row))
                (monthly_table rs')) as Hsame.
  { rewrite !monthly_table_rows, !map_map.
    rewrite (bin_ords_perm _ _ (Permutation_map fst Hperm)).
    apply map_ext. intros i. unfold bucket_row. cbn [idx_month coverage].
    now rewrite (in_bin_length_perm rs rs' i Hperm). }
  split; [exact Hsame|].
  pose proof (filter_by_key
                (fun row => (idx_month row, coverage row))
                (fun k => Qlt_bool MIN_COVERAGE (snd k))
                _ _ Hsame) as Hkept.
  cbn [snd] in Hkept. apply (f_equal (map fst)) in Hkept.
  rewrite !map_map in Hkept. exact Hkept.
Qed.

Lemma reading_order_is_irrelevant_witness :
  map (fun row => (idx_month row, coverage row))
      (monthly_table gap_readings)
  = map (fun row => (idx_month row, coverage row))
        (monthly_table (rev gap_readings)) /\
  map idx_month (query (monthly_table gap_readings))
  = map idx_month (query (monthly_table (rev gap_readings))).
Proof.
  apply (reading_order_is_irrelevant gap_readings (rev gap_readings)).
  apply Permutation_rev.
Defined.

(** X15.  When the months of the table are first-of-month dates and the
    service returns no reading from before the requested start, every
    month a run stages for a station is later than every month the station
    already has: a month at or before the station's last month is never
    added, also when the table lacks it. *)
Theorem staged_months_are_later
  (remote : Remote) (df_exist : list record) (stn : string)
  (r old : record) :
  Forall (fun x => first_of_month (rec_month x)) df_exist ->
  honours_start remote ->
  In r (staged remote df_exist stn) ->
  In old df_exist -> station old = stn ->
  month_ord (rec_month old) < month_ord (rec_month r) /\
  key old <> key r.
Proof.
  intros Hdates Hremote Hr Hold Hstn.
  assert (In old (loc df_exist stn)) as Hloc.
  { apply filter_In. split; [assumption|].
    rewrite Hstn. apply String.eqb_refl. }
  pose proof (staged_after_existing remote df_exist Hdates Hremote
                                    stn r old Hr Hloc) as Hlt.
  split; [exact Hlt|].
  intros Hkey. injection Hkey as _ Hmo. rewrite Hmo in Hlt. lia.
Qed.

Lemma staged_months_are_later_witness :
  let row := bucket_row paed_readings (2018 * 12 + 0) in
  let r := mk_record "PAED" (idx_month row) (m_hdd60 row) (m_hdd65 row) in
  let old :=
    mk_record "PAED" (date 2017 12 1) (Num (1200 # 1)) (Num (1355 # 1)) in
  month_ord (rec_month old) < month_ord (rec_month r) /\
  key old <> key r.
Proof.
  apply (staged_months_are_later archive two_stations "PAED").
  - apply two_stations_well_formed.
  - apply archive_honours_start.
  - vm_compute. left. reflexivity.
  - simpl. auto.
  - reflexivity.
Defined.
